(** * go-testcov: the coverage-profile pipeline of [main.go]

    A shallow embedding of [main.go] and the properties of its parser,
    path resolver, inline-suppression filter, budget reader and reporter.

    Go strings are byte sequences; they are modelled as [list ascii].
    Go [int] is modelled as [Z]. The arithmetic the program does on [int]
    is on line numbers that index a slice, so no value leaves the 64-bit
    range before an out-of-range index panics; the one [int] read from a
    text, the budget, is checked against that range. A panic is [None]. *)

From Stdlib Require Import Ascii String ZArith Lia DecimalString.
From stdpp Require Import base option list gmap strings sorting.

Local Open Scope Z_scope.
Local Open Scope list_scope.

Abbreviation str := (list ascii).

(** A literal: ["abc"] written as [$"abc"]. *)
Notation "$ s" := (list_ascii_of_string s%string) (at level 1, format "$ s").

Definition nl : ascii := "010"%char.
Definition tab : ascii := "009"%char.
Definition cr : ascii := "013"%char.
Definition ff : ascii := "012"%char.

(** ** The [strings] package, as far as [main.go] calls it *)

Module GoStrings.

Fixpoint HasPrefix (s prefix : str) {struct prefix} : bool :=
  match prefix, s with
  | [], _ => true
  | p :: prefix', c :: s' => if decide (c = p) then HasPrefix s' prefix' else false
  | _ :: _, [] => false
  end.

Definition HasSuffix (s suffix : str) : bool :=
  if decide (length suffix ≤ length s)%nat
  then bool_decide (drop (length s - length suffix) s = suffix)
  else false.

(** [strings.Index]: the first index at which [substr] occurs, [None] for -1. *)
Fixpoint Index (s substr : str) : option nat :=
  if HasPrefix s substr then Some 0%nat
  else match s with
       | [] => None
       | _ :: s' => S <$> Index s' substr
       end.

(** [strings.Count] for a non-empty [substr]: non-overlapping occurrences. *)
Fixpoint Count_go (fuel : nat) (s substr : str) : nat :=
  match fuel with
  | O => 0
  | S fuel' =>
      match Index s substr with
      | Some m => S (Count_go fuel' (drop (m + length substr) s) substr)
      | None => 0
      end
  end%nat.

Definition Count (s substr : str) : nat := Count_go (length s) s substr.

(** The loop of [genSplit]: at most [k] cuts, the rest stays whole. *)
Fixpoint genSplit (k : nat) (s sep : str) : list str :=
  match k with
  | O => [s]
  | S k' =>
      match Index s sep with
      | Some m => take m s :: genSplit k' (drop (m + length sep) s) sep
      | None => [s]
      end
  end.

(** [strings.SplitN] for a non-empty separator (every call site passes one):
    [n = 0] gives no piece, [n < 0] all pieces, [n > 0] at most [n]. *)
Definition SplitN (s sep : str) (n : Z) : list str :=
  if decide (n = 0) then []
  else if decide (n < 0) then genSplit (Count s sep) s sep
  else genSplit (Z.to_nat (Z.min n (Z.of_nat (length s) + 1)) - 1) s sep.

Definition Split (s sep : str) : list str := SplitN s sep (-1).

Fixpoint Join (elems : list str) (sep : str) : str :=
  match elems with
  | [] => []
  | [e] => e
  | e :: rest => e ++ sep ++ Join rest sep
  end.

End GoStrings.

(** ** The [regexp] package: a backtracking matcher

  Go's [regexp] gives the leftmost match and, among the matches that start
  there, the one a backtracking search finds first. The matcher below
  returns, for a start state, the end states in that order of preference.
  Patterns match bytes; every pattern of [main.go] is ASCII and continues,
  after [.] or [.*], with an ASCII byte, so matching bytes and matching
  runes agree. *)

Module GoRegexp.

Inductive class : Type :=
| CByte (c : ascii)   (* a literal byte *)
| CDot                (* .   : anything but a newline *)
| CSpace              (* \s  : [\t\n\f\r ] *)
| CDigit.             (* [0-9] *)

Inductive regex : Type :=
| RClass (c : class)
| RBegin                      (* ^ *)
| REnd                        (* $ *)
| REmpty
| RCat (r1 r2 : regex)
| RAlt (r1 r2 : regex)
| RStar (r : regex)
| RPlus (r : regex)
| RGroup (r : regex).         (* ( ... ), the one capture group *)

Definition is_space (c : ascii) : bool :=
  bool_decide (c = tab ∨ c = nl ∨ c = ff ∨ c = cr ∨ c = " "%char).

Definition is_digit (c : ascii) : bool :=
  let n := nat_of_ascii c in (48 <=? n)%nat && (n <=? 57)%nat.

Definition in_class (k : class) (c : ascii) : bool :=
  match k with
  | CByte b => bool_decide (c = b)
  | CDot => negb (bool_decide (c = nl))
  | CSpace => is_space c
  | CDigit => is_digit c
  end.

(** The state of a match attempt: whether we are still at the beginning of
    the text, the text not yet consumed, and the text of the capture group. *)
Record mstate : Type := MState {
  ms_bot : bool;
  ms_rest : str;
  ms_cap : option str
}.

Fixpoint star_loop (step : mstate → list mstate) (fuel : nat) (st : mstate)
  : list mstate :=
  match fuel with
  | O => [st]
  | S fuel' =>
      flat_map (λ st',
          if decide (length (ms_rest st') < length (ms_rest st))%nat
          then star_loop step fuel' st' else [])
        (step st) ++ [st]
  end.

Fixpoint run (r : regex) (st : mstate) : list mstate :=
  match r with
  | RClass k =>
      match ms_rest st with
      | c :: rest => if in_class k c then [MState false rest (ms_cap st)] else []
      | [] => []
      end
  | RBegin => if ms_bot st then [st] else []
  | REnd => match ms_rest st with [] => [st] | _ :: _ => [] end
  | REmpty => [st]
  | RCat r1 r2 => flat_map (run r2) (run r1 st)
  | RAlt r1 r2 => run r1 st ++ run r2 st
  | RStar r' => star_loop (run r') (S (length (ms_rest st))) st
  | RPlus r' =>
      flat_map (λ st', star_loop (run r') (S (length (ms_rest st'))) st') (run r' st)
  | RGroup r' =>
      map (λ st',
          MState (ms_bot st') (ms_rest st')
            (Some (take (length (ms_rest st) - length (ms_rest st')) (ms_rest st))))
        (run r' st)
  end.

(** The leftmost start at which the pattern matches, with the preferred end
    state there. [i] counts the bytes skipped so far. *)
Fixpoint search (r : regex) (bot : bool) (s : str) (i : nat)
  : option (nat * mstate) :=
  match run r (MState bot s None) with
  | st :: _ => Some (i, st)
  | [] =>
      match s with
      | [] => None
      | _ :: s' => search r false s' (S i)
      end
  end.

Definition MatchString (r : regex) (s : str) : bool :=
  bool_decide (is_Some (search r true s 0)).

(** [FindStringIndex]: start and end of the leftmost match. *)
Definition FindStringIndex (r : regex) (s : str) : option (nat * nat) :=
  match search r true s 0 with
  | Some (i, st) => Some (i, (length s - length (ms_rest st))%nat)
  | None => None
  end.

(** [FindStringSubmatch] for a pattern with one group: the matched text and
    the group's text; the empty slice when nothing matches. *)
Definition FindStringSubmatch (r : regex) (s : str) : list str :=
  match search r true s 0 with
  | Some (i, st) =>
      [take (length s - length (ms_rest st) - i) (drop i s);
       default [] (ms_cap st)]
  | None => []
  end.

(** [regexp.MustCompile] for the syntax the patterns of [main.go] use:
    literal bytes, [.], [^], [$], [\s], an escaped byte, [[0-9]], groups,
    [|], [*] and [+]. *)
Fixpoint parse_postfix (r : regex) (s : str) : regex * str :=
  match s with
  | "*"%char :: s' => parse_postfix (RStar r) s'
  | "+"%char :: s' => parse_postfix (RPlus r) s'
  | _ => (r, s)
  end.

Definition ends_branch (s : str) : bool :=
  match s with
  | [] => true
  | c :: _ => bool_decide (c = "|"%char ∨ c = ")"%char)
  end.

Fixpoint parse_alt (fuel : nat) (s : str) : option (regex * str) :=
  match fuel with
  | O => None
  | S fuel' =>
      '(r1, s1) ← parse_cat fuel' s;
      match s1 with
      | "|"%char :: s2 => '(r2, s3) ← parse_alt fuel' s2; Some (RAlt r1 r2, s3)
      | _ => Some (r1, s1)
      end
  end
with parse_cat (fuel : nat) (s : str) : option (regex * str) :=
  match fuel with
  | O => None
  | S fuel' =>
      if ends_branch s then Some (REmpty, s)
      else
        '(a, s1) ← parse_atom fuel' s;
        let '(r1, s2) := parse_postfix a s1 in
        if ends_branch s2 then Some (r1, s2)
        else '(r2, s3) ← parse_cat fuel' s2; Some (RCat r1 r2, s3)
  end
with parse_atom (fuel : nat) (s : str) : option (regex * str) :=
  match fuel with
  | O => None
  | S fuel' =>
      match s with
      | [] => None
      | "("%char :: s1 =>
          '(r, s2) ← parse_alt fuel' s1;
          match s2 with
          | ")"%char :: s3 => Some (RGroup r, s3)
          | _ => None
          end
      | "."%char :: s1 => Some (RClass CDot, s1)
      | "^"%char :: s1 => Some (RBegin, s1)
      | "$"%char :: s1 => Some (REnd, s1)
      | "\"%char :: "s"%char :: s1 => Some (RClass CSpace, s1)
      | "\"%char :: c :: s1 => Some (RClass (CByte c), s1)
      | "["%char :: "0"%char :: "-"%char :: "9"%char :: "]"%char :: s1 =>
          Some (RClass CDigit, s1)
      | c :: s1 =>
          if bool_decide (c = "*"%char ∨ c = "+"%char ∨ c = "["%char ∨ c = "\"%char)
          then None else Some (RClass (CByte c), s1)
      end
  end.

(** A pattern that does not compile panics at start-up; [None] here. *)
Definition Compile (pattern : str) : option regex :=
  match parse_alt (S (3 * length pattern)) pattern with
  | Some (r, []) => Some r
  | _ => None
  end.

(** [MustCompile] of a pattern that compiles. A pattern that does not would
    stop the program before [main]; it is given the pattern that matches
    nothing, [$] after a byte. *)
Definition MustCompile (pattern : str) : regex :=
  default (RCat (RClass CDot) (RCat REnd (RClass CDot))) (Compile pattern).

(** A chain of literal bytes in front of a pattern: the shape in which
    [Compile] leaves a literal. *)
Fixpoint RLits (lit : str) (r : regex) : regex :=
  match lit with
  | [] => r
  | c :: lit' => RCat (RClass (CByte c)) (RLits lit' r)
  end.

(** The end states of [k*] for a class [k], longest first. *)
Fixpoint star_states (k : class) (bot : bool) (s : str) (cap : option str)
  : list mstate :=
  match s with
  | c :: s' =>
      if in_class k c
      then star_states k false s' cap ++ [MState bot s cap]
      else [MState bot s cap]
  | [] => [MState bot [] cap]
  end.

(** The pattern matches at the start of [s]. *)
Definition accepts (r : regex) (b : bool) (s : str) (cap : option str) : Prop :=
  ∃ st, In st (run r (MState b s cap)).

End GoRegexp.

Import GoRegexp.

(** ** The patterns of [main.go] *)

Definition inlineIgnore : str := $"//.*untested section(\s|,|$)".
Definition anyInlineIgnore : regex :=
  Eval vm_compute in MustCompile inlineIgnore.
Definition startsWithInlineIgnore : regex :=
  Eval vm_compute in MustCompile ($"^\s*" ++ inlineIgnore).
Definition perFileIgnore : regex :=
  Eval vm_compute in MustCompile $"// *untested sections: *([0-9]+)".
Definition generatedFile : regex :=
  Eval vm_compute in MustCompile $"/*generated.*\.go$".

(** ** The world outside the program *)

Definition PathSeparator : ascii := "/"%char.

(** What [os.Stat] reports for a path: no error, the error that
    [os.IsNotExist] recognises, or another error. *)
Inductive stat_result : Type := StatOk | StatNotExist | StatFailed.

Definition IsNotExist (r : stat_result) : bool :=
  match r with StatNotExist => true | _ => false end.

Record World : Type := {
  files : str → option str;      (* the text of a readable file *)
  Stat : str → stat_result;      (* os.Stat *)
  GOPATH : option str;           (* os.LookupEnv("GOPATH") *)
  Getwd : option str             (* os.Getwd, None for an error *)
}.

(** What a run has written to the diagnostic stream, one entry per write,
    and the exit code [checkCoverage] will return. *)
Record RunState : Type := {
  stderr : list str;
  exitCode : Z
}.

Definition Fprint (text : str) (st : RunState) : RunState :=
  {| stderr := stderr st ++ [text]; exitCode := exitCode st |}.

Definition setExitCode (code : Z) (st : RunState) : RunState :=
  {| stderr := stderr st; exitCode := code |}.

(** [%v] of an [int]. *)
Definition formatInt (n : Z) : str :=
  list_ascii_of_string (NilZero.string_of_int (Z.to_int n)).

(** Modelled from the spec: the struct [Section] (the spec's Region) is
    declared outside [main.go]; these are the attributes the data model
    lists, which are also the fields [main.go] reads. *)
Record Section : Type := {
  path : str;
  startLine : Z;
  endLine : Z;
  sortValue : Z
}.

#[global] Instance Section_eq_dec : EqDecision Section.
Proof. solve_decision. Defined.

(** Modelled from the spec: [readFile] is declared outside [main.go]. It
    returns the full text of a file; a missing or unreadable file is fatal. *)
Definition readFile (w : World) (path : str) : option str := files w path.

(** Modelled from the spec: [splitWithoutEmpty] is declared outside
    [main.go]. The profile's records are its non-empty lines: the pieces
    between delimiters, without the empty ones. *)
Definition splitWithoutEmpty (s : str) (delimiter : ascii) : list str :=
  filter (λ piece, piece ≠ []) (GoStrings.Split s [delimiter]).

(** Modelled from the spec: [joinPath] is declared outside [main.go]. The
    build-root candidate is [buildRoot/src/<path>]: the parts joined by the
    path separator. *)
Definition joinPath (parts : list str) : str :=
  GoStrings.Join parts [PathSeparator].

(** The largest value of a Go [int] (64 bits). *)
Definition maxInt : Z := 2 ^ 63 - 1.

(** The number a run of decimal digits denotes. *)
Definition decimal (s : str) : Z :=
  fold_left (λ acc c, 10 * acc + (Z.of_nat (nat_of_ascii c) - 48)) s 0.

(** Modelled from the spec: [stringToInt] is declared outside [main.go]. It
    gives the integer a run of decimal digits denotes, as a Go [int]; the
    conversion of a number that no [int] holds fails, and the program
    panics ([None]). *)
Definition stringToInt (s : str) : option Z :=
  if decide (decimal s ≤ maxInt) then Some (decimal s) else None.

(** The order [sort.Strings] uses: bytewise lexicographic. *)
Definition str_le (a b : str) : Prop :=
  String.le (string_of_list_ascii a) (string_of_list_ascii b).

#[global] Instance str_le_dec : RelDecision str_le.
Proof. intros a b. unfold str_le. apply _. Defined.

(** Modelled from the spec: [iterateBySortedKey] is declared outside
    [main.go]. It visits the keys of the mapping in sorted order and calls
    the function on each key and its value. The function is a state
    transformer that may panic. *)
Definition iterateBySortedKey (data : gmap str (list Section))
    (fn : str → list Section → RunState → option RunState)
    (st : RunState) : option RunState :=
  foldl (λ acc key, st' ← acc; fn key (default [] (data !! key)) st')
    (Some st) (merge_sort str_le (map fst (map_to_list data))).

(** ** [sort.Slice]

    The library sorts in place and promises no stability. It is modelled by
    the insertion sort it uses on short slices; the properties below use
    only that the result is ordered and a permutation of the input. *)

Module GoSort.

Fixpoint insert {A} (less : A → A → bool) (x : A) (l : list A) : list A :=
  match l with
  | [] => [x]
  | y :: l' => if less x y then x :: y :: l' else y :: insert less x l'
  end.

Definition Slice {A} (l : list A) (less : A → A → bool) : list A :=
  foldl (λ sorted x, insert less x sorted) [] l.

End GoSort.

(** ** Slice indexing, with the reads recorded

    [lines[i]] panics when [i] is out of range. To state which elements the
    suppression filter reads, its model records every read: the line number
    the scan is at and the index it reads. *)

Inductive access : Type := Access (lineNumber : Z) (index : Z).

Definition traced (A : Type) : Type := (list access * option A)%type.

Definition tret {A} (a : A) : traced A := ([], Some a).

Definition tbind {A B} (m : traced A) (f : A → traced B) : traced B :=
  match m with
  | (log, Some a) => let '(log', r) := f a in (log ++ log', r)
  | (log, None) => (log, None)
  end.

Definition elemAt {A} (l : list A) (i : Z) : option A :=
  if decide (0 ≤ i) then l !! Z.to_nat i else None.

Definition readLine (lines : list str) (lineNumber i : Z) : traced str :=
  ([Access lineNumber i], elemAt lines i).

(** ** The functions of [main.go] *)

Section Program.

(** [NewSection] (a record line to a region) and [Section.Location] (a
    region's line range in the profile's notation) are declared outside
    [main.go]; the program is verified for every such pair. *)
Variable NewSection : str → Section.
Variable Location : Section → str.

Definition printUntestedSections (sections : list Section)
    (displayPath details : str) (st : RunState) : RunState :=
  let st := Fprint (displayPath ++ $" new untested sections introduced "
                      ++ details ++ [nl]) st in
  (* sort sections since go coverage output is not sorted *)
  let sections :=
    GoSort.Slice sections (λ i j, bool_decide (sortValue i < sortValue j)) in
  (* print copy-paste friendly snippets *)
  foldl (λ st section, Fprint (displayPath ++ $":" ++ Location section ++ [nl]) st)
    st sections.

(** The inner loop of [removeSectionsMarkedWithInlineComment] for one
    section, from [lineNumber] on; [fuel] is the number of line numbers left
    up to [endLine]. A [break] returns the sections kept so far. *)
Fixpoint scanSection (fuel : nat) (lines : list str) (section : Section)
    (lineNumber : Z) (sections : list Section) : traced (list Section) :=
  match fuel with
  | O => tret sections
  | S fuel' =>
      if decide (lineNumber ≤ endLine section) then
        tbind (readLine lines lineNumber (lineNumber - 1)) (λ line,
          if MatchString anyInlineIgnore line then tret sections
          else
            tbind
              (if decide (lineNumber >= 2)
               then tbind (readLine lines lineNumber (lineNumber - 2)) (λ above,
                      tret (MatchString startsWithInlineIgnore above))
               else tret false)
              (λ ignoredAbove,
                if ignoredAbove then tret sections
                else if decide (lineNumber = endLine section)
                     then scanSection fuel' lines section (lineNumber + 1)
                            (sections ++ [section])
                     else scanSection fuel' lines section (lineNumber + 1)
                            sections))
      else tret sections
  end.

Fixpoint removeLoop (uncheckedSections : list Section) (lines : list str)
    (sections : list Section) : traced (list Section) :=
  match uncheckedSections with
  | [] => tret sections
  | section :: rest =>
      tbind
        (scanSection (Z.to_nat (endLine section - startLine section + 1))
           lines section (startLine section) sections)
        (λ sections', removeLoop rest lines sections')
  end.

Definition removeSectionsMarkedWithInlineComment_traced
    (sections : list Section) (lines : list str) : traced (list Section) :=
  removeLoop sections lines [].

(** The sections kept, or [None] when a read of [lines] is out of range. *)
Definition removeSectionsMarkedWithInlineComment
    (sections : list Section) (lines : list str) : option (list Section) :=
  snd (removeSectionsMarkedWithInlineComment_traced sections lines).

Definition groupSectionsByPath (sections : list Section)
    : gmap str (list Section) :=
  foldl (λ (grouped : gmap str (list Section)) section,
      let path := path section in
      let group := default [] (grouped !! path) in
      let grouped :=
        if decide (is_Some (grouped !! path)) then grouped
        else <[path := []]> grouped in
      <[path := group ++ [section]]> grouped)
    ∅ sections.

(** [untestedSections] on the text [readFile] returned. *)
Definition untestedSectionsOf (content : str) : list Section :=
  let lines := splitWithoutEmpty content nl in
  (* remove the initial `set: mode` line *)
  match lines with
  | [] => []
  | _ :: lines =>
      (* we want lines that end in " 0", they have no coverage *)
      foldl (λ sections line,
          if GoStrings.HasSuffix line $" 0"
          then sections ++ [NewSection line] else sections)
        [] lines
  end.

Definition untestedSections (w : World) (coverageFilePath : str)
    : option (list Section) :=
  content ← readFile w coverageFilePath;
  Some (untestedSectionsOf content).

(** The loop of [findFile]: drop leading directories until [os.Stat]
    reports no error. *)
Fixpoint findFileLoop (w : World) (parts : list str) : list str :=
  match parts with
  | [] => []
  | _ :: rest =>
      match Stat w (GoStrings.Join parts [PathSeparator]) with
      | StatOk => parts
      | _ => findFileLoop w rest
      end
  end.

Definition findFile (w : World) (path : str) : str :=
  let parts := GoStrings.Split path [PathSeparator] in
  GoStrings.Join (findFileLoop w parts) [PathSeparator].

Definition normalizeCoveredPath (w : World) (path workingDirectory : str)
    : option (str * str) :=
  let modulePrefixSize := 3 in
  let separator := [PathSeparator] in
  let parts := GoStrings.SplitN path separator (modulePrefixSize + 1) in
  let goPath := default [] (GOPATH w) in
  let hasGoPath := bool_decide (is_Some (GOPATH w)) in
  let goPrefixedPath := joinPath [goPath; $"src"; path] in
  let inGoPath :=
    if hasGoPath
    then negb (IsNotExist (Stat w goPrefixedPath))
    else false in
  (* path too short, return a good guess *)
  if decide (Z.of_nat (length parts) ≤ modulePrefixSize) then
    if inGoPath then Some (path, goPrefixedPath) else Some (path, path)
  else
    let prefix := GoStrings.Join (take (Z.to_nat modulePrefixSize) parts) separator in
    rest ← elemAt (GoStrings.SplitN path (prefix ++ separator) 2) 1;
    let demodularized := findFile w rest in
    (* folder is not in go path ... remove module nesting *)
    if negb inGoPath then Some (demodularized, demodularized)
    (* we are in a nested folder ... *)
    else if GoStrings.HasSuffix workingDirectory prefix
         then Some (demodularized, goPrefixedPath)
    (* testing remote package, don't expand display but expand full goPath *)
    else Some (path, goPrefixedPath).

(** [configuredUntestedForFile] on the text [readFile] returned; [None]
    when [stringToInt] panics. *)
Definition configuredUntestedOf (content : str) : option (Z * Z) :=
  let match_ := FindStringSubmatch perFileIgnore content in
  if decide (length match_ = 2%nat) then
    match FindStringIndex perFileIgnore content, match_ !! 1%nat with
    | Some (index, _), Some digits =>
        let linesBeforeMatch := GoStrings.Count (take index content) [nl] in
        count ← stringToInt digits;
        Some (count, Z.of_nat linesBeforeMatch + 1)
    | _, _ => Some (0, 0)
    end
  else Some (0, 0).

Definition configuredUntestedForFile (w : World) (path : str)
    : option (Z * Z) :=
  content ← readFile w path;
  configuredUntestedOf content.

(** The comparison of a file's untested sections with its budget: the body
    of the function [checkCoverage] passes to [iterateBySortedKey], after
    the check for generated files. *)
Definition compareWithBudget (w : World) (wd : str) (path : str)
    (sections : list Section) (st : RunState) : option RunState :=
  '(displayPath, readPath) ← normalizeCoveredPath w path wd;
  '(configuredUntested, configuredUntestedAtLine) ←
    configuredUntestedForFile w readPath;
  content ← readFile w readPath;
  let lines := GoStrings.Split content [nl] in
  sections ← removeSectionsMarkedWithInlineComment sections lines;
  let actualUntested := Z.of_nat (length sections) in
  let details :=
    $"(" ++ formatInt actualUntested ++ $" current vs "
      ++ formatInt configuredUntested ++ $" configured)" in
  if decide (actualUntested = configuredUntested) then
    (* exactly as much as we expected, nothing to do *)
    Some st
  else if decide (actualUntested > configuredUntested) then
    (* at least 1 failure, so say to add more tests *)
    Some (setExitCode 1 (printUntestedSections sections displayPath details st))
  else
    Some (Fprint
            (displayPath ++ $" has less untested sections " ++ details
               ++ $", decrement configured untested?" ++ [nl]
               ++ $"configured on: " ++ readPath ++ $":"
               ++ formatInt configuredUntestedAtLine)
            st).

(** The function [checkCoverage] passes to [iterateBySortedKey]. *)
Definition checkPath (w : World) (wd : str) (path : str)
    (sections : list Section) (st : RunState) : option RunState :=
  (* skip generated files since their coverage does not matter *)
  if MatchString generatedFile path then Some st
  else compareWithBudget w wd path sections st.

(** [checkCoverage]: the exit code, with what was written to the
    diagnostic stream. *)
Definition checkCoverage (w : World) (coverageFilePath : str)
    : option (Z * list str) :=
  let st := {| stderr := []; exitCode := 0 |} in
  untestedSections ← untestedSections w coverageFilePath;
  let sectionsByPath := groupSectionsByPath untestedSections in
  wd ← Getwd w;
  st ← iterateBySortedKey sectionsByPath (checkPath w wd) st;
  Some (exitCode st, stderr st).

End Program.

(** ** The properties, in the words of the specification

    These definitions do not mention the matcher or the loops above; the
    theorems below relate the program to them. *)

Module Spec.

(** Splitting at every occurrence of one byte. *)
Fixpoint split_on (c : ascii) (s : str) : list str :=
  match s with
  | [] => [[]]
  | x :: s' =>
      if decide (x = c) then [] :: split_on c s'
      else match split_on c s' with
           | piece :: pieces => (x :: piece) :: pieces
           | [] => [[x]]
           end
  end.

(** The segments of a path. *)
Definition segments (path : str) : list str := split_on PathSeparator path.

(** The record lines of a profile: its non-empty lines after the first. *)
Definition recordLines (content : str) : list str :=
  tail (filter (λ line, line ≠ []) (split_on nl content)).

(** The whitespace-separated tokens of a line. *)
Fixpoint tokens_go (cur : str) (s : str) : list str :=
  match s with
  | [] => if decide (cur = []) then [] else [cur]
  | c :: s' =>
      if is_space c
      then (if decide (cur = []) then tokens_go [] s' else cur :: tokens_go [] s')
      else tokens_go (cur ++ [c]) s'
  end.

Definition tokens (line : str) : list str := tokens_go [] line.

Definition trailingToken (line : str) : option str := last (tokens line).

(** A record with hit count zero, as the specification words it: the
    trailing whitespace-separated token is exactly ["0"]. *)
Definition zeroHitToken (line : str) : Prop := trailingToken line = Some ($"0").

(** A record whose text ends with a space and then [0]. *)
Definition endsInSpaceZero (line : str) : Prop := ∃ front, line = front ++ $" 0".

(** What may follow the phrase of a marker: white space, a comma, or the
    end of the line. *)
Definition markerEnd (post : str) : Prop :=
  post = [] ∨ ∃ c rest, post = c :: rest ∧ (is_space c = true ∨ c = ","%char).

(** [s] begins with a line comment that contains the phrase
    "untested section", followed as [markerEnd] says. *)
Definition markerComment (s : str) : Prop :=
  ∃ a post,
    s = $"//" ++ a ++ $"untested section" ++ post ∧ (nl ∉ a) ∧ markerEnd post.

(** The line carries the marker somewhere. *)
Definition hasMarker (line : str) : Prop :=
  ∃ code s, line = code ++ s ∧ markerComment s.

(** The line is, after leading white space, a marker comment and nothing
    else. *)
Definition isMarkerLine (line : str) : Prop :=
  ∃ ws s, line = ws ++ s ∧ Forall (λ c, is_space c = true) ws ∧ markerComment s.

(** Line [n] (1-based) of the file. *)
Definition lineAt (lines : list str) (n : Z) : option str := elemAt lines (n - 1).

(** The region is suppressed: a line of the region carries the marker, or
    the line just above the region is a marker line. *)
Definition suppressed (section : Section) (lines : list str) : Prop :=
  (∃ n line, startLine section ≤ n ≤ endLine section
             ∧ lineAt lines n = Some line ∧ hasMarker line)
  ∨ (∃ above, lineAt lines (startLine section - 1) = Some above
              ∧ isMarkerLine above).

(** The region lies within the file. *)
Definition covered (lines : list str) (section : Section) : Prop :=
  1 ≤ startLine section ∧ startLine section ≤ endLine section
  ∧ endLine section ≤ Z.of_nat (length lines).

(** The budget comment at the start of [s]: [//], spaces,
    [untested sections:], spaces, and the longest run of digits, which is
    returned with the text after it. *)
Definition stripPrefix (prefix s : str) : option str :=
  if decide (take (length prefix) s = prefix)
  then Some (drop (length prefix) s) else None.

Definition isBlank (c : ascii) : bool := bool_decide (c = " "%char).

Fixpoint skipWhile (p : ascii → bool) (s : str) : str :=
  match s with
  | c :: s' => if p c then skipWhile p s' else s
  | [] => []
  end.

Fixpoint spanWhile (p : ascii → bool) (s : str) : str :=
  match s with
  | c :: s' => if p c then c :: spanWhile p s' else []
  | [] => []
  end.

Definition budgetWith (phrase : str → option str) (s : str)
    : option (str * str) :=
  s1 ← stripPrefix $"//" s;
  s2 ← phrase (skipWhile isBlank s1);
  let s3 := skipWhile isBlank s2 in
  let digits := spanWhile is_digit s3 in
  if decide (digits = []) then None
  else Some (digits, skipWhile is_digit s3).

Definition budgetAt : str → option (str * str) :=
  budgetWith (stripPrefix $"untested sections:").

(** The first budget comment of a file: where it starts and its digits. *)
Fixpoint firstBudget (at_ : str → option (str * str)) (s : str) (i : nat)
  : option (nat * str) :=
  match at_ s with
  | Some (digits, _) => Some (i, digits)
  | None =>
      match s with
      | [] => None
      | _ :: s' => firstBudget at_ s' (S i)
      end
  end.

Definition newlinesIn (s : str) : nat := length (filter (λ c, c = nl) s).

(** The budget record of a file for a given reading of the comment: the
    integer of the first comment with the number of its line, (0, 0) when
    there is no comment, and no record ([None], the program panics) when
    the integer is more than a Go [int] holds. *)
Definition budgetRecord (at_ : str → option (str * str)) (content : str)
    : option (Z * Z) :=
  match firstBudget at_ content 0 with
  | Some (i, digits) =>
      if decide (decimal digits ≤ maxInt)
      then Some (decimal digits, Z.of_nat (newlinesIn (take i content)) + 1)
      else None
  | None => Some (0, 0)
  end.

(** A record line in the format of the profile: it ends with a space and
    the hit count, a run of digits. *)
Definition inFormat (line : str) : Prop :=
  ∃ front hitCount,
    line = front ++ " "%char :: hitCount
    ∧ hitCount ≠ [] ∧ Forall (λ c, is_digit c = true) hitCount.

(** The same, as a check that computes. *)
Definition inFormatb (line : str) : bool :=
  match skipWhile is_digit (reverse line) with
  | c :: _ =>
      bool_decide (c = " "%char)
      && bool_decide (spanWhile is_digit (reverse line) ≠ [])
  | [] => false
  end.

(** The same comment read without regard to the case of its letters, as the
    specification words it. *)
Definition lower (c : ascii) : ascii :=
  let n := nat_of_ascii c in
  if (65 <=? n)%nat && (n <=? 90)%nat then ascii_of_nat (n + 32) else c.

Definition stripPrefixAnyCase (prefix s : str) : option str :=
  if decide (map lower (take (length prefix) s) = map lower prefix)
  then Some (drop (length prefix) s) else None.

Definition budgetAtAnyCase : str → option (str * str) :=
  budgetWith (stripPrefixAnyCase $"untested sections:").

(** The generated-file naming convention: the name ends in [.go] and has
    the marker [generated] before it, on the same line. *)
Definition generatedName (path : str) : Prop :=
  ∃ dir mid, path = dir ++ $"generated" ++ mid ++ $".go" ∧ nl ∉ mid.

(** The build-root candidate of a path. *)
Definition candidate (buildRoot path : str) : str := buildRoot ++ $"/src/" ++ path.

(** No build-root candidate is on disk: no build root is configured, or the
    candidate does not exist. *)
Definition noCandidate (w : World) (path : str) : Prop :=
  match GOPATH w with
  | None => True
  | Some buildRoot => Stat w (candidate buildRoot path) = StatNotExist
  end.

(** The build-root candidate [cand] of the path is on disk. *)
Definition candidateExists (w : World) (path cand : str) : Prop :=
  ∃ buildRoot, GOPATH w = Some buildRoot ∧ cand = candidate buildRoot path
               ∧ Stat w cand = StatOk.

Definition onDisk (w : World) (parts : list str) : Prop :=
  Stat w (GoStrings.Join parts [PathSeparator]) = StatOk.

(** [found] is what is left of [parts] after removing leading components
    until what is left is on disk, or nothing is left. *)
Definition firstOnDisk (w : World) (parts found : list str) : Prop :=
  ∃ k, found = drop k parts ∧ (k ≤ length parts)%nat
       ∧ (∀ j, (j < k)%nat → ¬ onDisk w (drop j parts))
       ∧ ((k < length parts)%nat → onDisk w found).

(** The demodularized path: the three segments of the module prefix
    stripped, then leading components removed until a file is found. *)
Definition demodularized (w : World) (path d : str) : Prop :=
  ∃ found, firstOnDisk w (drop 3 (segments path)) found
           ∧ d = GoStrings.Join found [PathSeparator].

(** The module prefix: the first three segments. *)
Definition modulePrefix (path : str) : str :=
  GoStrings.Join (take 3 (segments path)) [PathSeparator].

End Spec.

(** ** The suppression filter without its record of reads

    [ignoredAt] is one turn of the inner loop: whether the scan breaks at
    [lineNumber]; [keeps] is the loop; [keptOf] the outer loop. They are
    proved equal to the value [removeSectionsMarkedWithInlineComment]
    returns. *)

Definition ignoredAt (lines : list str) (lineNumber : Z) : option bool :=
  line ← elemAt lines (lineNumber - 1);
  if MatchString anyInlineIgnore line then Some true
  else if decide (lineNumber >= 2)
       then above ← elemAt lines (lineNumber - 2);
            Some (MatchString startsWithInlineIgnore above)
       else Some false.

Fixpoint keeps (fuel : nat) (lines : list str) (section : Section)
    (lineNumber : Z) : option bool :=
  match fuel with
  | O => Some false
  | S fuel' =>
      if decide (lineNumber ≤ endLine section) then
        ignored ← ignoredAt lines lineNumber;
        if ignored : bool then Some false
        else if decide (lineNumber = endLine section) then Some true
             else keeps fuel' lines section (lineNumber + 1)
      else Some false
  end.

Definition keepsSection (lines : list str) (section : Section) : option bool :=
  keeps (Z.to_nat (endLine section - startLine section + 1)) lines section
    (startLine section).

Fixpoint keptOf (sections : list Section) (lines : list str)
    : option (list Section) :=
  match sections with
  | [] => Some []
  | section :: rest =>
      keep ← keepsSection lines section;
      kept ← keptOf rest lines;
      Some ((if keep : bool then [section] else []) ++ kept)
  end.

(** What one read of the filter must satisfy: it is the read of the line
    the scan is at, or of the line before it when there is one. *)
Definition readOf (section : Section) (a : access) : Prop :=
  match a with
  | Access lineNumber i =>
      startLine section ≤ lineNumber ≤ endLine section
      ∧ (i = lineNumber - 1 ∨ (i = lineNumber - 2 ∧ lineNumber >= 2))
  end.

(** [lines'] has the lines of [lines], each with at least its markers. *)
Definition moreMarked (lines lines' : list str) : Prop :=
  length lines' = length lines
  ∧ ∀ i line, lines !! i = Some line →
      ∃ line', lines' !! i = Some line'
        ∧ (MatchString anyInlineIgnore line = true
           → MatchString anyInlineIgnore line' = true)
        ∧ (MatchString startsWithInlineIgnore line = true
           → MatchString startsWithInlineIgnore line' = true).

#[global] Instance zeroHitToken_dec line : Decision (Spec.zeroHitToken line).
Proof. unfold Spec.zeroHitToken. apply _. Defined.

#[global] Instance endsInSpaceZero_dec line : Decision (Spec.endsInSpaceZero line).
Proof.
  unfold Spec.endsInSpaceZero.
  destruct (decide (drop (length line - 2) line = $" 0")) as [Heq|Hne].
  - left. exists (take (length line - 2) line).
    rewrite <- Heq. by rewrite take_drop.
  - right. intros [front ->]. apply Hne. rewrite length_app. simpl.
    replace (length front + 2 - 2)%nat with (length front) by lia.
    by rewrite drop_app_length.
Defined.

(** The order and the comparison [printUntestedSections] sorts by. *)
Definition bySortValue (a b : Section) : Prop := sortValue a ≤ sortValue b.

Definition lessSortValue (i j : Section) : bool :=
  bool_decide (sortValue i < sortValue j).

(** The file at [path], with the regions [sections] the profile reports for
    it, is over its budget: it is not a generated file, and more regions
    are left after suppression than its budget allows. *)
Definition overBudget (w : World) (wd path : str) (sections : list Section)
    : Prop :=
  ¬ Spec.generatedName path
  ∧ ∃ displayPath readPath content kept,
      normalizeCoveredPath w path wd = Some (displayPath, readPath)
      ∧ files w readPath = Some content
      ∧ removeSectionsMarkedWithInlineComment sections
          (Spec.split_on nl content) = Some kept
      ∧ ∃ configured atLine,
          configuredUntestedOf content = Some (configured, atLine)
          ∧ Z.of_nat (length kept) > configured.

(** The regions the profile reports for [path], in the profile's order. *)
Definition sectionsOf (file : str) (sections : list Section) : list Section :=
  filter (λ section, path section = file) sections.

(** ** Data for the examples

    A stand-in for [NewSection] and [Location], a small source tree and a
    profile of it. *)

Definition exampleNewSection (line : str) : Section :=
  {| path := Spec.spanWhile (λ c, negb (bool_decide (c = ":"%char))) line;
     startLine := 2;
     endLine := 2;
     sortValue := Z.of_nat (length line) |}.

Definition exampleLocation (section : Section) : str :=
  formatInt (startLine section) ++ $"," ++ formatInt (endLine section).

Definition exampleProfile : str :=
  $"mode: set" ++ [nl]
    ++ $"a.go:2.13,2.30 1 0" ++ [nl]
    ++ $"a.go:2.2,2.12 1 0" ++ [nl]
    ++ $"b.go:2.1,2.9 1 10" ++ [nl].

Definition exampleSource : str :=
  $"package a" ++ [nl] ++ $"func f() { g(); h() }" ++ [nl].

Definition exampleWorld : World :=
  {| files := λ p,
       if decide (p = $"coverage.out") then Some exampleProfile
       else if decide (p = $"a.go") then Some exampleSource
       else None;
     Stat := λ p,
       if decide (p = $"/go/src/a.go") then StatOk
       else if decide (p = $"pkg/a.go") then StatOk
       else if decide (p = $"/go/src/github.com/x/y/pkg/a.go") then StatOk
       else StatNotExist;
     GOPATH := Some $"/go";
     Getwd := Some $"/home/dev/y" |}.

(** The same tree without a build root. *)
Definition exampleWorldNoRoot : World :=
  {| files := files exampleWorld;
     Stat := Stat exampleWorld;
     GOPATH := None;
     Getwd := Getwd exampleWorld |}.

(** A profile whose record separates the hit count by a tab. *)
Definition tabProfile : str :=
  $"mode: set" ++ [nl] ++ $"a.go:2.13,2.30 1" ++ [tab] ++ $"0" ++ [nl].

(** A budget comment written with capitals. *)
Definition capitalBudget : str := $"// Untested Sections: 3".

(** The source of [file] can be read and holds its regions. *)
Definition readable (w : World) (wd file : str) (sections : list Section) : Prop :=
  ∀ displayPath readPath,
    normalizeCoveredPath w file wd = Some (displayPath, readPath) →
    ∃ content, files w readPath = Some content
               ∧ is_Some (configuredUntestedOf content)
               ∧ Forall (Spec.covered (Spec.split_on nl content)) sections.

(** ** The entry point *)



Section EntryPoint.

Variable NewSection : str → Section.
Variable Location : Section → str.

(** [runCommand] is declared outside [main.go]. It runs the external test
    command, which may change the files, and returns its exit code; the
    entry point is verified for every such command. *)
Variable runCommand : str → list str → World → Z * World.


End EntryPoint.

(** A profile that names only a generated file, and a tree that holds it but
    not the file. *)
Definition generatedProfile : str :=
  $"mode: set" ++ [nl]
    ++ $"api/zz_generated.deepcopy.go:2.13,2.30 1 0" ++ [nl]
    ++ $"api/zz_generated.deepcopy.go:5.2,7.12 3 0" ++ [nl].

Definition generatedWorld : World :=
  {| files := λ p, if decide (p = $"coverage.out") then Some generatedProfile else None;
     Stat := λ p, StatNotExist;
     GOPATH := None;
     Getwd := Some $"/home/dev/y" |}.

(** A test command that fails with exit code 2 and writes no profile. *)
Definition failingCommand (name : str) (args : list str) (w : World) : Z * World :=
  (2, w).

(** A tree with a build root in which [os.Stat] fails for every path with an
    error other than "does not exist" (the build root is a plain file, say),
    and no file can be read. *)
Definition failedWorld : World :=
  {| files := λ p, None;
     Stat := λ p, StatFailed;
     GOPATH := Some $"/tmp/notdir";
     Getwd := Some $"/home/dev/y" |}.

(** A budget of twenty digits. *)
Definition hugeBudget : str := $"// untested sections: 99999999999999999999".

(** ** Facts about the matcher *)

Lemma flat_map_singleton {A B} (f : A → list B) (x : A) :
  flat_map f [x] = f x.
Proof. simpl. apply app_nil_r. Qed.

Lemma run_byte b c s cap r :
  run (RCat (RClass (CByte c)) r) (MState b s cap) =
  match s with
  | x :: s' => if decide (x = c) then run r (MState false s' cap) else []
  | [] => []
  end.
Proof.
  simpl. destruct s as [|x s']; [done|].
  unfold bool_decide. destruct (decide_rel eq x c); simpl; [apply app_nil_r|done].
Qed.

Lemma stripPrefix_cons c lit x s :
  Spec.stripPrefix (c :: lit) (x :: s) =
  if decide (x = c) then Spec.stripPrefix lit s else None.
Proof.
  unfold Spec.stripPrefix. cbn [length take drop].
  destruct (decide (x = c)) as [->|Hx].
  - destruct (decide (take (length lit) s = lit)) as [He|He].
    + rewrite decide_True; [done|]. by rewrite He.
    + rewrite decide_False; [done|]. intros [=]. done.
  - rewrite decide_False; [done|]. intros [=]. done.
Qed.

Lemma stripPrefix_nil_r c lit : Spec.stripPrefix (c :: lit) [] = None.
Proof. done. Qed.

Lemma stripPrefix_nil_l s : Spec.stripPrefix [] s = Some s.
Proof. done. Qed.

Lemma stripPrefix_Some prefix s s' :
  Spec.stripPrefix prefix s = Some s' ↔ s = prefix ++ s'.
Proof.
  unfold Spec.stripPrefix. destruct (decide _) as [He|He].
  - split.
    + intros [= <-]. by rewrite <- He at 1; rewrite take_drop.
    + intros ->. by rewrite drop_app_length.
  - split; [done|]. intros ->. destruct He. by rewrite take_app_length.
Qed.

Lemma run_RLits lit r b s cap :
  lit ≠ [] →
  run (RLits lit r) (MState b s cap) =
  match Spec.stripPrefix lit s with
  | Some s' => run r (MState false s' cap)
  | None => []
  end.
Proof.
  revert b s. induction lit as [|c lit IH]; intros b s Hne; [done|].
  cbn [RLits]. rewrite run_byte.
  destruct s as [|x s']; [done|].
  rewrite stripPrefix_cons. destruct (decide (x = c)) as [->|Hx]; [|done].
  destruct lit as [|c' lit']; [by rewrite stripPrefix_nil_l|].
  by rewrite IH.
Qed.

Lemma star_loop_class k fuel b s cap :
  (length s < fuel)%nat →
  star_loop (run (RClass k)) fuel (MState b s cap) = star_states k b s cap.
Proof.
  revert b s. induction fuel as [|fuel IH]; intros b s Hlt; [lia|].
  destruct s as [|c s']; [done|].
  cbn [star_loop run ms_rest ms_cap star_states].
  destruct (in_class k c); [|done].
  rewrite flat_map_singleton. cbn [ms_rest length].
  rewrite decide_True by lia. rewrite IH; [done|]. simpl in Hlt. lia.
Qed.

Lemma run_star_class k b s cap :
  run (RStar (RClass k)) (MState b s cap) = star_states k b s cap.
Proof. cbn [run ms_rest]. apply star_loop_class. lia. Qed.

Lemma run_plus_class k b s cap :
  run (RPlus (RClass k)) (MState b s cap) =
  match s with
  | c :: s' => if in_class k c then star_states k false s' cap else []
  | [] => []
  end.
Proof.
  cbn [run ms_rest ms_cap]. destruct s as [|c s']; [done|].
  destruct (in_class k c); [|done].
  rewrite flat_map_singleton. cbn [ms_rest]. apply star_loop_class. lia.
Qed.

(** Membership in the end states of [k*]: a prefix in the class was read. *)
Lemma in_star_states k b s cap st :
  In st (star_states k b s cap) ↔
  ∃ pre suf, s = pre ++ suf ∧ Forall (λ c, in_class k c = true) pre
             ∧ st = MState (b && bool_decide (pre = [])) suf cap.
Proof.
  revert b. induction s as [|c s IH]; intros b.
  - simpl. split.
    + intros [<-|[]]. exists [], []. by rewrite andb_true_r.
    + intros (pre & suf & Hs & _ & ->). symmetry in Hs.
      apply app_eq_nil in Hs as [-> ->]. left. by rewrite andb_true_r.
  - cbn [star_states]. destruct (in_class k c) eqn:Hc.
    + rewrite in_app_iff, IH. split.
      * intros [(pre & suf & -> & Hpre & ->)|[<-|[]]].
        -- exists (c :: pre), suf. split; [done|]. split; [by constructor|].
           by rewrite andb_false_r.
        -- exists [], (c :: s). by rewrite andb_true_r.
      * intros (pre & suf & Hs & Hpre & ->). destruct pre as [|x pre].
        -- right. left. simpl in Hs. subst suf. by rewrite andb_true_r.
        -- left. injection Hs as -> ->. exists pre, suf.
           split; [done|]. split; [by inversion Hpre|]. by rewrite andb_false_r.
    + split.
      * intros [<-|[]]. exists [], (c :: s). by rewrite andb_true_r.
      * intros (pre & suf & Hs & Hpre & ->). destruct pre as [|x pre].
        -- left. simpl in Hs. subst suf. by rewrite andb_true_r.
        -- injection Hs as -> ->. inversion Hpre; congruence.
Qed.

(** When the pattern after [k*] cannot start with a byte of the class, only
    the longest run of the class is followed by a match. *)
Lemma flat_map_star_states {B} (f : mstate → list B) k b s cap :
  (∀ b' c s', in_class k c = true → f (MState b' (c :: s') cap) = []) →
  (∀ b1 b2 s', f (MState b1 s' cap) = f (MState b2 s' cap)) →
  flat_map f (star_states k b s cap) =
  f (MState false (Spec.skipWhile (in_class k) s) cap).
Proof.
  intros Hf Hb. revert b. induction s as [|c s IH]; intros b.
  - cbn [star_states Spec.skipWhile]. rewrite flat_map_singleton. apply Hb.
  - cbn [star_states Spec.skipWhile]. destruct (in_class k c) eqn:Hc.
    + rewrite flat_map_app, flat_map_singleton, Hf, app_nil_r by done.
      apply IH.
    + rewrite flat_map_singleton. apply Hb.
Qed.

(** ** Facts about the [strings] functions *)

Lemma HasPrefix_spec s prefix :
  GoStrings.HasPrefix s prefix = true ↔ ∃ rest, s = prefix ++ rest.
Proof.
  revert s. induction prefix as [|p prefix IH]; intros s; simpl.
  - split; [intros _; by exists s|done].
  - destruct s as [|c s].
    + split; [done|]. intros [rest [=]].
    + destruct (decide (c = p)) as [->|Hne].
      * rewrite IH. split; intros [rest Hr]; exists rest; congruence.
      * split; [done|]. intros [rest [=]]. done.
Qed.

Lemma HasSuffix_spec s suffix :
  GoStrings.HasSuffix s suffix = true ↔ ∃ front, s = front ++ suffix.
Proof.
  unfold GoStrings.HasSuffix. destruct (decide _) as [Hle|Hgt].
  - rewrite bool_decide_eq_true. split.
    + intros Hd. exists (take (length s - length suffix) s).
      rewrite <- Hd at 2. by rewrite take_drop.
    + intros [front ->]. rewrite length_app.
      replace (length front + length suffix - length suffix)%nat
        with (length front) by lia.
      by rewrite drop_app_length.
  - split; [done|]. intros [front ->]. rewrite length_app in Hgt. lia.
Qed.

(** [Index] finds an occurrence, and the first one. *)
Lemma Index_Some s substr m :
  GoStrings.Index s substr = Some m →
  ∃ front rest, s = front ++ substr ++ rest ∧ length front = m
    ∧ ∀ j, (j < m)%nat → GoStrings.HasPrefix (drop j s) substr = false.
Proof.
  revert m. induction s as [|c s IH]; intros m; cbn [GoStrings.Index].
  - destruct (GoStrings.HasPrefix [] substr) eqn:Hp; [|done].
    intros [= <-]. apply HasPrefix_spec in Hp as [rest Hr].
    exists [], rest. split; [done|]. split; [done|]. intros j Hj. lia.
  - destruct (GoStrings.HasPrefix (c :: s) substr) eqn:Hp.
    + intros [= <-]. apply HasPrefix_spec in Hp as [rest Hr].
      exists [], rest. split; [done|]. split; [done|]. intros j Hj. lia.
    + destruct (GoStrings.Index s substr) as [m'|] eqn:Hi; [|done].
      intros [= <-]. destruct (IH m' eq_refl) as (front & rest & -> & <- & Hfirst).
      exists (c :: front), rest. split; [done|]. split; [done|].
      intros [|j] Hj; [done|]. simpl. apply Hfirst. simpl in Hj. lia.
Qed.

Lemma Index_None s substr :
  GoStrings.Index s substr = None →
  ∀ front rest, s ≠ front ++ substr ++ rest.
Proof.
  induction s as [|c s IH]; cbn [GoStrings.Index].
  - destruct (GoStrings.HasPrefix [] substr) eqn:Hp; [done|].
    intros _ front rest Hs. symmetry in Hs.
    apply app_eq_nil in Hs as [-> Hs]. apply app_eq_nil in Hs as [-> ->].
    done.
  - destruct (GoStrings.HasPrefix (c :: s) substr) eqn:Hp; [done|].
    destruct (GoStrings.Index s substr) eqn:Hi; [done|].
    intros _ front rest Hs. destruct front as [|x front].
    + assert (GoStrings.HasPrefix (c :: s) substr = true); [|congruence].
      apply HasPrefix_spec. exists rest. done.
    + injection Hs as -> Hs. by apply (IH eq_refl front rest).
Qed.

Lemma Index_prefix s substr :
  GoStrings.Index (substr ++ s) substr = Some 0%nat.
Proof.
  assert (Hp : GoStrings.HasPrefix (substr ++ s) substr = true)
    by (apply HasPrefix_spec; eauto).
  destruct (substr ++ s); cbn [GoStrings.Index]; by rewrite Hp.
Qed.

(** For a one-byte separator, the first occurrence splits the text around
    the first such byte. *)
Lemma Index_byte_Some s c m :
  GoStrings.Index s [c] = Some m →
  ∃ front rest, s = front ++ c :: rest ∧ length front = m ∧ c ∉ front.
Proof.
  intros Hi. destruct (Index_Some _ _ _ Hi) as (front & rest & -> & <- & Hfirst).
  exists front, rest. split; [done|]. split; [done|].
  intros Hin. apply list_elem_of_lookup in Hin as [j Hj].
  assert (Hlt : (j < length front)%nat) by (by eapply lookup_lt_Some).
  specialize (Hfirst j Hlt).
  assert (GoStrings.HasPrefix (drop j (front ++ [c] ++ rest)) [c] = true); [|congruence].
  apply HasPrefix_spec. apply list_elem_of_split_length in Hj as (l1 & l2 & -> & ->).
  exists (l2 ++ [c] ++ rest). rewrite <- !app_assoc. by rewrite drop_app_length.
Qed.

Lemma Index_byte_None s c : GoStrings.Index s [c] = None → c ∉ s.
Proof.
  intros Hi Hin. apply list_elem_of_split in Hin as (l1 & l2 & ->).
  by apply (Index_None _ _ Hi l1 l2).
Qed.

Lemma split_on_notin c s : c ∉ s → Spec.split_on c s = [s].
Proof.
  induction s as [|x s IH]; [done|]. intros Hn. simpl.
  rewrite decide_False by (intros ->; apply Hn; left).
  rewrite IH; [done|]. intros Hin. apply Hn. by right.
Qed.

Lemma split_on_app c front rest :
  c ∉ front →
  Spec.split_on c (front ++ c :: rest) = front :: Spec.split_on c rest.
Proof.
  induction front as [|x front IH]; intros Hn; simpl.
  - by rewrite decide_True.
  - rewrite decide_False by (intros ->; apply Hn; left).
    rewrite IH; [done|]. intros Hin. apply Hn. by right.
Qed.

Lemma split_on_nonempty c s : Spec.split_on c s ≠ [].
Proof.
  destruct s as [|x s]; [done|]. simpl. destruct (decide (x = c)); [done|].
  by destruct (Spec.split_on c s).
Qed.

Lemma Join_cons e rest sep :
  rest ≠ [] → GoStrings.Join (e :: rest) sep = e ++ sep ++ GoStrings.Join rest sep.
Proof. by destruct rest. Qed.

Lemma Join_split_on c s : GoStrings.Join (Spec.split_on c s) [c] = s.
Proof.
  induction s as [|x s IH]; [done|]. cbn [Spec.split_on].
  destruct (decide (x = c)) as [->|Hne].
  - rewrite Join_cons by apply split_on_nonempty. by rewrite IH.
  - pose proof (split_on_nonempty c s) as Hn.
    destruct (Spec.split_on c s) as [|piece pieces]; [done|].
    destruct pieces as [|p2 pieces]; simpl in *; by rewrite <- IH.
Qed.

Lemma newlinesIn_app a b :
  Spec.newlinesIn (a ++ b) = (Spec.newlinesIn a + Spec.newlinesIn b)%nat.
Proof. unfold Spec.newlinesIn. by rewrite filter_app, length_app. Qed.

Lemma count_notin c (s : str) : c ∉ s → length (filter (λ x, x = c) s) = 0%nat.
Proof.
  induction s as [|x s IH]; [done|]. intros Hn.
  rewrite filter_cons_False by (intros ->; apply Hn; left).
  apply IH. intros Hin. apply Hn. by right.
Qed.

(** [Count] of a one-byte pattern counts the occurrences of the byte. *)
Lemma Count_go_byte fuel s c :
  (length s ≤ fuel)%nat →
  GoStrings.Count_go fuel s [c] = length (filter (λ x, x = c) s).
Proof.
  revert s. induction fuel as [|fuel IH]; intros s Hlen.
  - destruct s; [done|simpl in Hlen; lia].
  - cbn [GoStrings.Count_go]. destruct (GoStrings.Index s [c]) as [m|] eqn:Hi.
    + apply Index_byte_Some in Hi as (front & rest & -> & <- & Hn).
      cbn [length]. rewrite Nat.add_1_r.
      replace (front ++ c :: rest) with ((front ++ [c]) ++ rest) at 1
        by (by rewrite <- app_assoc).
      replace (S (length front)) with (length (front ++ [c]))
        by (rewrite length_app; simpl; lia).
      rewrite drop_app_length. rewrite IH.
      * rewrite filter_app, length_app, (count_notin c front Hn).
        by rewrite filter_cons_True.
      * rewrite length_app in Hlen. simpl in Hlen. lia.
    + apply Index_byte_None in Hi. by rewrite count_notin.
Qed.

Lemma Count_byte s c :
  GoStrings.Count s [c] = length (filter (λ x, x = c) s).
Proof. apply Count_go_byte. done. Qed.

(** With enough cuts allowed, [genSplit] on a one-byte separator splits at
    every occurrence. *)
Lemma genSplit_all k s c :
  (length (filter (λ x, x = c) s) ≤ k)%nat →
  GoStrings.genSplit k s [c] = Spec.split_on c s.
Proof.
  revert s. induction k as [|k IH]; intros s Hk.
  - cbn [GoStrings.genSplit]. symmetry. apply split_on_notin.
    intros Hin. apply list_elem_of_split in Hin as (l1 & l2 & ->).
    rewrite filter_app, length_app, filter_cons_True in Hk by done.
    simpl in Hk. lia.
  - cbn [GoStrings.genSplit]. destruct (GoStrings.Index s [c]) as [m|] eqn:Hi.
    + apply Index_byte_Some in Hi as (front & rest & -> & <- & Hn).
      rewrite take_app_length. cbn [length]. rewrite Nat.add_1_r.
      replace (front ++ c :: rest) with ((front ++ [c]) ++ rest) at 1
        by (by rewrite <- app_assoc).
      replace (S (length front)) with (length (front ++ [c]))
        by (rewrite length_app; simpl; lia).
      rewrite drop_app_length, split_on_app by done. f_equal. apply IH.
      rewrite filter_app, length_app, filter_cons_True in Hk by done.
      simpl in Hk. lia.
    + apply Index_byte_None in Hi. by rewrite split_on_notin.
Qed.

Lemma Split_byte s c : GoStrings.Split s [c] = Spec.split_on c s.
Proof.
  unfold GoStrings.Split, GoStrings.SplitN. simpl.
  apply genSplit_all. by rewrite Count_byte.
Qed.

Lemma length_split_on c s :
  length (Spec.split_on c s) = S (length (filter (λ x, x = c) s)).
Proof.
  induction s as [|x s IH]; [done|]. cbn [Spec.split_on].
  destruct (decide (x = c)) as [->|Hne].
  - rewrite filter_cons_True by done. simpl. by rewrite IH.
  - rewrite filter_cons_False by done.
    destruct (Spec.split_on c s); simpl in *; [done|]. done.
Qed.

(** With [k] cuts, the first [k] pieces are cut off and the rest stays
    joined. *)
Lemma genSplit_some k s c :
  (k < length (Spec.split_on c s))%nat →
  GoStrings.genSplit k s [c] =
  take k (Spec.split_on c s) ++ [GoStrings.Join (drop k (Spec.split_on c s)) [c]].
Proof.
  revert s. induction k as [|k IH]; intros s Hk.
  - simpl. rewrite drop_0. by rewrite Join_split_on.
  - cbn [GoStrings.genSplit]. destruct (GoStrings.Index s [c]) as [m|] eqn:Hi.
    + apply Index_byte_Some in Hi as (front & rest & -> & <- & Hn).
      rewrite take_app_length. cbn [length]. rewrite Nat.add_1_r.
      replace (front ++ c :: rest) with ((front ++ [c]) ++ rest) at 1
        by (by rewrite <- app_assoc).
      replace (S (length front)) with (length (front ++ [c]))
        by (rewrite length_app; simpl; lia).
      rewrite drop_app_length, split_on_app by done. simpl. f_equal.
      apply IH. rewrite split_on_app in Hk by done. simpl in Hk. lia.
    + apply Index_byte_None in Hi. rewrite split_on_notin in Hk by done.
      simpl in Hk. lia.
Qed.

(** ** The budget pattern *)

Lemma run_cat r1 r2 st : run (RCat r1 r2) st = flat_map (run r2) (run r1 st).
Proof. done. Qed.

Lemma run_group r st :
  run (RGroup r) st =
  map (λ st', MState (ms_bot st') (ms_rest st')
                (Some (take (length (ms_rest st) - length (ms_rest st')) (ms_rest st))))
    (run r st).
Proof. done. Qed.

Lemma perFileIgnore_shape :
  perFileIgnore =
  RLits $"//" (RCat (RStar (RClass (CByte " ")))
    (RLits $"untested sections:" (RCat (RStar (RClass (CByte " ")))
       (RGroup (RPlus (RClass CDigit)))))).
Proof. reflexivity. Qed.

Lemma span_skip p s : Spec.spanWhile p s ++ Spec.skipWhile p s = s.
Proof.
  induction s as [|c s IH]; [done|]. simpl. destruct (p c); [|done].
  simpl. by rewrite IH.
Qed.

Lemma take_span p s :
  take (length s - length (Spec.skipWhile p s)) s = Spec.spanWhile p s.
Proof.
  rewrite <- (span_skip p s) at 1 3. rewrite length_app.
  replace (length (Spec.spanWhile p s) + length (Spec.skipWhile p s)
           - length (Spec.skipWhile p s))%nat
    with (length (Spec.spanWhile p s)) by lia.
  by rewrite take_app_length.
Qed.

Lemma head_star_states k b s cap :
  ∃ b', head (star_states k b s cap)
        = Some (MState b' (Spec.skipWhile (in_class k) s) cap).
Proof.
  revert b. induction s as [|c s IH]; intros b; [by eexists|].
  cbn [star_states Spec.skipWhile]. destruct (in_class k c); [|by eexists].
  destruct (IH false) as [b' Hb']. exists b'.
  destruct (star_states k false s cap); [done|]. done.
Qed.

Lemma star_states_bot_false k s cap st :
  In st (star_states k false s cap) → ms_bot st = false.
Proof.
  intros Hin. apply in_star_states in Hin as (pre & suf & _ & _ & ->). done.
Qed.

Lemma head_star_states_false k s cap :
  head (star_states k false s cap)
  = Some (MState false (Spec.skipWhile (in_class k) s) cap).
Proof.
  destruct (head_star_states k false s cap) as [b' Hb']. rewrite Hb'.
  destruct b'; [|done]. exfalso.
  assert (Hin : In (MState true (Spec.skipWhile (in_class k) s) cap)
                  (star_states k false s cap)).
  { destruct (star_states k false s cap); [done|]. injection Hb' as ->. by left. }
  by apply star_states_bot_false in Hin.
Qed.

(** At a given start, the budget pattern matches exactly where the budget
    comment of the specification begins, and the preferred match takes the
    longest run of digits. *)
Lemma run_perFileIgnore b s :
  head (run perFileIgnore (MState b s None)) =
  (λ '(digits, rest), MState false rest (Some digits)) <$> Spec.budgetAt s.
Proof.
  rewrite perFileIgnore_shape, run_RLits by done.
  unfold Spec.budgetAt, Spec.budgetWith.
  destruct (Spec.stripPrefix $"//" s) as [s1|]; [|done]. cbn [mbind option_bind].
  rewrite run_cat, run_star_class.
  rewrite flat_map_star_states; cycle 1.
  { intros b' c s' Hc. rewrite run_RLits by done.
    apply bool_decide_eq_true in Hc as ->. done. }
  { intros b1 b2 s'. by rewrite !run_RLits. }
  rewrite run_RLits by done.
  change (Spec.skipWhile (in_class (CByte " ")) s1)
    with (Spec.skipWhile Spec.isBlank s1).
  destruct (Spec.stripPrefix $"untested sections:" (Spec.skipWhile Spec.isBlank s1))
    as [s2|]; [|done]. cbn [mbind option_bind].
  rewrite run_cat, run_star_class.
  rewrite flat_map_star_states; cycle 1.
  { intros b' c s' Hc. rewrite run_group, run_plus_class.
    apply bool_decide_eq_true in Hc as ->. done. }
  { intros b1 b2 s'. by rewrite !run_group, !run_plus_class. }
  change (Spec.skipWhile (in_class (CByte " ")) s2)
    with (Spec.skipWhile Spec.isBlank s2).
  rewrite run_group, run_plus_class. cbn [ms_rest].
  destruct (Spec.skipWhile Spec.isBlank s2) as [|c s3]; [done|].
  cbn [Spec.spanWhile Spec.skipWhile]. change (in_class CDigit c) with (is_digit c).
  destruct (is_digit c) eqn:Hc; [|done].
  rewrite decide_False by done. cbn [fmap option_fmap option_map].
  pose proof (head_star_states_false CDigit s3 None) as Hh.
  destruct (star_states CDigit false s3 None) as [|st sts]; [done|].
  injection Hh as ->. cbn [map head ms_bot ms_rest]. do 3 f_equal.
  change (in_class CDigit) with is_digit.
  pose proof (take_span is_digit (c :: s3)) as Ht.
  cbn [Spec.spanWhile Spec.skipWhile] in Ht. rewrite Hc in Ht. done.
Qed.

Lemma search_perFileIgnore b s i :
  (λ '(j, st), (j, default [] (ms_cap st))) <$> search perFileIgnore b s i =
  Spec.firstBudget Spec.budgetAt s i.
Proof.
  revert b i. induction s as [|c s IH]; intros b i.
  - cbn [search Spec.firstBudget]. pose proof (run_perFileIgnore b []) as Hr.
    destruct (run perFileIgnore (MState b [] None)) as [|st sts];
      destruct (Spec.budgetAt []) as [[d r]|]; simplify_eq/=; done.
  - cbn [search Spec.firstBudget]. pose proof (run_perFileIgnore b (c :: s)) as Hr.
    destruct (run perFileIgnore (MState b (c :: s) None)) as [|st sts];
      destruct (Spec.budgetAt (c :: s)) as [[d r]|]; simplify_eq/=; done.
Qed.

Lemma stringToInt_decimal digits :
  stringToInt digits
  = if decide (decimal digits ≤ maxInt) then Some (decimal digits) else None.
Proof. done. Qed.

(** The budget reader returns the budget record of the first budget
    comment. *)
Lemma configuredUntestedOf_budgetRecord content :
  configuredUntestedOf content = Spec.budgetRecord Spec.budgetAt content.
Proof.
  unfold configuredUntestedOf, Spec.budgetRecord, FindStringSubmatch, FindStringIndex.
  rewrite <- (search_perFileIgnore true content 0).
  destruct (search perFileIgnore true content 0) as [[j st]|]; [|done].
  cbn -[stringToInt decimal maxInt]. rewrite Count_byte, stringToInt_decimal.
  unfold Spec.newlinesIn. rewrite decide_True by done.
  by destruct (decide (decimal _ ≤ maxInt)).
Qed.

(** ** What the marker and generated-file patterns accept *)

Lemma nonempty_In {A} (l : list A) : l ≠ [] ↔ ∃ x, In x l.
Proof.
  destruct l as [|x l]; split; try done.
  - intros [x []].
  - intros _. exists x. by left.
Qed.

Lemma accepts_RLits lit r b s cap :
  lit ≠ [] →
  accepts (RLits lit r) b s cap ↔ ∃ s', s = lit ++ s' ∧ accepts r false s' cap.
Proof.
  intros Hne. unfold accepts. rewrite run_RLits by done.
  destruct (Spec.stripPrefix lit s) as [s1|] eqn:Hs.
  - apply stripPrefix_Some in Hs as ->. split.
    + intros Hst. exists s1. done.
    + intros (s' & Heq & Hst). by apply app_inv_head in Heq as <-.
  - split; [by intros [st []]|]. intros (s' & -> & _).
    assert (Spec.stripPrefix lit (lit ++ s') = Some s') by (by apply stripPrefix_Some).
    congruence.
Qed.

Lemma accepts_star_cat k r b s cap :
  accepts (RCat (RStar (RClass k)) r) b s cap ↔
  ∃ pre suf, s = pre ++ suf ∧ Forall (λ c, in_class k c = true) pre
             ∧ accepts r (b && bool_decide (pre = [])) suf cap.
Proof.
  unfold accepts. rewrite run_cat, run_star_class. split.
  - intros (st & Hin). apply in_flat_map in Hin as (st1 & Hin1 & Hin).
    apply in_star_states in Hin1 as (pre & suf & -> & Hpre & ->). eauto 6.
  - intros (pre & suf & -> & Hpre & st & Hin). exists st.
    apply in_flat_map. eexists. split; [|done].
    apply in_star_states. eauto.
Qed.

Lemma accepts_markerEnd b post cap :
  accepts (RGroup (RAlt (RClass CSpace) (RAlt (RClass (CByte ",")) REnd))) b post cap
  ↔ Spec.markerEnd post.
Proof.
  unfold accepts, Spec.markerEnd. rewrite run_group. cbn [run ms_rest ms_cap].
  destruct post as [|c rest].
  - split; [by left|]. intros _. eexists. by left.
  - change (in_class CSpace c) with (is_space c).
    change (in_class (CByte ",") c) with (bool_decide (c = ","%char)).
    destruct (is_space c) eqn:Hsp.
    + split; [|intros _; eexists; by left].
      intros _. right. exists c, rest. auto.
    + destruct (bool_decide (c = ","%char)) eqn:Hcm.
      * split; [|intros _; eexists; by left].
        intros _. right. exists c, rest. apply bool_decide_eq_true in Hcm. auto.
      * split; [by intros [st []]|].
        apply bool_decide_eq_false in Hcm.
        intros [[=]|(c' & rest' & [= <- <-] & [Hc|Hc])]; congruence.
Qed.

Lemma dot_no_newline (a : str) :
  Forall (λ c, in_class CDot c = true) a ↔ nl ∉ a.
Proof.
  rewrite Forall_forall. split.
  - intros Ha Hin. specialize (Ha _ Hin).
    cbn [in_class] in Ha. by rewrite bool_decide_eq_true_2 in Ha.
  - intros Hn c Hin. cbn [in_class]. apply negb_true_iff, bool_decide_eq_false.
    by intros ->.
Qed.

Lemma anyInlineIgnore_shape :
  anyInlineIgnore =
  RLits $"//" (RCat (RStar (RClass CDot))
    (RLits $"untested section"
       (RGroup (RAlt (RClass CSpace) (RAlt (RClass (CByte ",")) REnd))))).
Proof. reflexivity. Qed.

Lemma startsWithInlineIgnore_shape :
  startsWithInlineIgnore = RCat RBegin (RCat (RStar (RClass CSpace)) anyInlineIgnore).
Proof. reflexivity. Qed.

Lemma generatedFile_shape :
  generatedFile =
  RCat (RStar (RClass (CByte "/")))
    (RLits $"generated" (RCat (RStar (RClass CDot)) (RLits $".go" REnd))).
Proof. reflexivity. Qed.

(** The marker pattern matches at the start of [s] exactly when [s] begins
    with a marker comment. *)
Lemma accepts_anyInlineIgnore b s cap :
  accepts anyInlineIgnore b s cap ↔ Spec.markerComment s.
Proof.
  rewrite anyInlineIgnore_shape, accepts_RLits by done.
  unfold Spec.markerComment. split.
  - intros (s1 & -> & Hacc). apply accepts_star_cat in Hacc
      as (a & suf & -> & Ha & Hacc).
    apply accepts_RLits in Hacc as (post & -> & Hacc); [|done].
    apply accepts_markerEnd in Hacc. apply dot_no_newline in Ha.
    exists a, post. done.
  - intros (a & post & -> & Ha & Hend). eexists. split; [done|].
    apply accepts_star_cat. exists a, ($"untested section" ++ post).
    split; [done|]. split; [by apply dot_no_newline|].
    apply accepts_RLits; [done|]. exists post. split; [done|].
    by apply accepts_markerEnd.
Qed.

Lemma accepts_startsWithInlineIgnore b s cap :
  accepts startsWithInlineIgnore b s cap ↔ b = true ∧ Spec.isMarkerLine s.
Proof.
  rewrite startsWithInlineIgnore_shape. unfold Spec.isMarkerLine. split.
  - intros [st Hin]. rewrite run_cat in Hin.
    apply in_flat_map in Hin as (st1 & Hin1 & Hin). cbn [run ms_bot] in Hin1.
    destruct b; [|done]. destruct Hin1 as [<-|[]]. split; [done|].
    assert (Hacc : accepts (RCat (RStar (RClass CSpace)) anyInlineIgnore) true s cap)
      by (by exists st).
    apply accepts_star_cat in Hacc as (ws & suf & -> & Hws & Hacc).
    apply accepts_anyInlineIgnore in Hacc. exists ws, suf. done.
  - intros [-> (ws & suf & -> & Hws & Hm)].
    assert (Hacc : accepts (RCat (RStar (RClass CSpace)) anyInlineIgnore) true (ws ++ suf) cap).
    { apply accepts_star_cat. exists ws, suf. split; [done|]. split; [done|].
      by apply accepts_anyInlineIgnore. }
    destruct Hacc as [st Hin]. exists st. rewrite run_cat.
    apply in_flat_map. eexists. split; [by left|done].
Qed.

Lemma accepts_REnd b s cap : accepts REnd b s cap ↔ s = [].
Proof.
  unfold accepts. cbn [run ms_rest]. destruct s.
  - split; [done|]. intros _. eexists. by left.
  - split; [by intros [st []]|done].
Qed.

Lemma accepts_generatedFile b s cap :
  accepts generatedFile b s cap ↔
  ∃ slashes mid, s = slashes ++ $"generated" ++ mid ++ $".go"
                 ∧ Forall (λ c, c = "/"%char) slashes ∧ nl ∉ mid.
Proof.
  rewrite generatedFile_shape, accepts_star_cat. split.
  - intros (sl & suf & -> & Hsl & Hacc).
    apply accepts_RLits in Hacc as (s1 & -> & Hacc); [|done].
    apply accepts_star_cat in Hacc as (mid & s2 & -> & Hmid & Hacc).
    apply accepts_RLits in Hacc as (s3 & -> & Hacc); [|done].
    apply accepts_REnd in Hacc as ->. exists sl, mid.
    split; [by rewrite app_nil_r|]. split; [|by apply dot_no_newline].
    eapply Forall_impl; [done|]. intros c Hc. by apply bool_decide_eq_true in Hc.
  - intros (sl & mid & -> & Hsl & Hmid). exists sl, ($"generated" ++ mid ++ $".go").
    split; [done|]. split.
    { eapply Forall_impl; [done|]. intros c ->. by apply bool_decide_eq_true. }
    apply accepts_RLits; [done|]. eexists. split; [done|].
    apply accepts_star_cat. exists mid, $".go". split; [done|].
    split; [by apply dot_no_newline|].
    apply accepts_RLits; [done|]. exists []. split; [done|].
    by apply accepts_REnd.
Qed.

(** [search] finds a match exactly when the pattern matches at some start;
    only the very first start is at the beginning of the text. *)
Lemma search_is_Some r b s i :
  is_Some (search r b s i) ↔
  ∃ pre suf, s = pre ++ suf ∧ accepts r (b && bool_decide (pre = [])) suf None.
Proof.
  revert b i. induction s as [|c s IH]; intros b i; cbn [search].
  - destruct (run r (MState b [] None)) as [|st sts] eqn:Hr.
    + split; [by intros [? [=]]|]. intros (pre & suf & Hs & st & Hin).
      symmetry in Hs. apply app_eq_nil in Hs as [-> ->].
      rewrite andb_true_r, Hr in Hin. done.
    + split; [|by eauto]. intros _. exists [], []. split; [done|].
      exists st. rewrite andb_true_r, Hr. by left.
  - destruct (run r (MState b (c :: s) None)) as [|st sts] eqn:Hr.
    + rewrite IH. split.
      * intros (pre & suf & -> & Hacc). exists (c :: pre), suf. split; [done|].
        by rewrite andb_false_r.
      * intros (pre & suf & Hs & st & Hin). destruct pre as [|x pre].
        -- simpl in Hs. subst suf. rewrite andb_true_r, Hr in Hin. done.
        -- injection Hs as -> ->. exists pre, suf. split; [done|].
           exists st. by rewrite andb_false_r in Hin.
    + split; [|by eauto]. intros _. exists [], (c :: s). split; [done|].
      exists st. rewrite andb_true_r, Hr. by left.
Qed.

Lemma MatchString_accepts r s :
  MatchString r s = true ↔
  ∃ pre suf, s = pre ++ suf ∧ accepts r (bool_decide (pre = [])) suf None.
Proof. unfold MatchString. rewrite bool_decide_eq_true. apply search_is_Some. Qed.

(** The three patterns, in the words of the specification. *)
Lemma MatchString_anyInlineIgnore line :
  MatchString anyInlineIgnore line = true ↔ Spec.hasMarker line.
Proof.
  rewrite MatchString_accepts. unfold Spec.hasMarker. split.
  - intros (pre & suf & -> & Hacc). apply accepts_anyInlineIgnore in Hacc. eauto.
  - intros (pre & suf & -> & Hm). exists pre, suf. split; [done|].
    by apply accepts_anyInlineIgnore.
Qed.

Lemma MatchString_startsWithInlineIgnore line :
  MatchString startsWithInlineIgnore line = true ↔ Spec.isMarkerLine line.
Proof.
  rewrite MatchString_accepts. split.
  - intros (pre & suf & -> & Hacc).
    apply accepts_startsWithInlineIgnore in Hacc as [Hb Hm].
    apply bool_decide_eq_true in Hb as ->. done.
  - intros Hm. exists [], line. split; [done|].
    by apply accepts_startsWithInlineIgnore.
Qed.

Lemma MatchString_generatedFile path :
  MatchString generatedFile path = true ↔ Spec.generatedName path.
Proof.
  rewrite MatchString_accepts. unfold Spec.generatedName. split.
  - intros (pre & suf & -> & Hacc).
    apply accepts_generatedFile in Hacc as (sl & mid & -> & _ & Hmid).
    exists (pre ++ sl), mid. by rewrite <- app_assoc.
  - intros (dir & mid & -> & Hmid). exists dir, ($"generated" ++ mid ++ $".go").
    split; [done|]. apply accepts_generatedFile. exists [], mid. done.
Qed.

(** A marker line carries the marker. *)
Lemma isMarkerLine_hasMarker line : Spec.isMarkerLine line → Spec.hasMarker line.
Proof. intros (ws & s & -> & _ & Hm). by exists ws, s. Qed.

(** ** The suppression filter *)

Lemma snd_tbind {A B} (m : traced A) (f : A → traced B) :
  snd (tbind m f) = snd m ≫= (λ a, snd (f a)).
Proof. destruct m as [log [a|]]; simpl; [|done]. by destruct (f a). Qed.

Lemma fst_tbind {A B} (m : traced A) (f : A → traced B) :
  fst (tbind m f) =
  fst m ++ match snd m with Some a => fst (f a) | None => [] end.
Proof.
  destruct m as [log [a|]]; simpl; [|by rewrite app_nil_r]. by destruct (f a).
Qed.

(** The value of the inner loop is what [keeps] says. *)
Lemma scanSection_snd fuel lines section lineNumber sections :
  snd (scanSection fuel lines section lineNumber sections) =
  (λ keep : bool, if keep then sections ++ [section] else sections)
    <$> keeps fuel lines section lineNumber.
Proof.
  revert lineNumber sections.
  induction fuel as [|fuel IH]; intros lineNumber sections; [done|].
  cbn [scanSection keeps]. destruct (decide (lineNumber ≤ endLine section)); [|done].
  rewrite snd_tbind. unfold ignoredAt, readLine. cbn [snd].
  destruct (elemAt lines (lineNumber - 1)) as [line|]; [|done].
  cbn [mbind option_bind].
  destruct (MatchString anyInlineIgnore line); [done|].
  rewrite snd_tbind.
  destruct (decide (lineNumber >= 2)).
  - rewrite snd_tbind. cbn [snd].
    destruct (elemAt lines (lineNumber - 2)) as [above|]; [|done].
    cbn [mbind option_bind tret snd].
    destruct (MatchString startsWithInlineIgnore above); [done|].
    destruct (decide (lineNumber = endLine section)) as [Heq|Hne].
    + rewrite IH. destruct fuel; cbn [keeps]; [done|].
      by rewrite decide_False by lia.
    + apply IH.
  - cbn [mbind option_bind tret snd].
    destruct (decide (lineNumber = endLine section)) as [Heq|Hne].
    + rewrite IH. destruct fuel; cbn [keeps]; [done|].
      by rewrite decide_False by lia.
    + apply IH.
Qed.

Lemma removeLoop_snd sections lines kept0 :
  snd (removeLoop sections lines kept0) = (kept0 ++.) <$> keptOf sections lines.
Proof.
  revert kept0. induction sections as [|section rest IH]; intros kept0.
  - simpl. by rewrite app_nil_r.
  - cbn [removeLoop keptOf]. rewrite snd_tbind, scanSection_snd.
    fold (keepsSection lines section).
    destruct (keepsSection lines section) as [keep|]; [|done].
    cbn [fmap option_fmap option_map mbind option_bind]. rewrite IH.
    destruct (keptOf rest lines) as [kept|]; [|done].
    cbn [fmap option_fmap option_map mbind option_bind].
    destruct keep; by rewrite <- ?app_assoc, ?app_nil_r.
Qed.

Lemma removeSections_keptOf sections lines :
  removeSectionsMarkedWithInlineComment sections lines = keptOf sections lines.
Proof.
  unfold removeSectionsMarkedWithInlineComment,
    removeSectionsMarkedWithInlineComment_traced.
  rewrite removeLoop_snd. by destruct (keptOf sections lines).
Qed.

(** The filter treats each region on its own. *)
Lemma removeSections_cons section rest lines :
  removeSectionsMarkedWithInlineComment (section :: rest) lines =
  kept1 ← removeSectionsMarkedWithInlineComment [section] lines;
  kept2 ← removeSectionsMarkedWithInlineComment rest lines;
  Some (kept1 ++ kept2).
Proof.
  rewrite !removeSections_keptOf. cbn [keptOf].
  destruct (keepsSection lines section) as [keep|]; [|done].
  cbn [mbind option_bind]. by rewrite app_nil_r.
Qed.

Lemma keptOf_sublist sections lines kept :
  keptOf sections lines = Some kept → sublist kept sections.
Proof.
  revert kept. induction sections as [|section rest IH]; intros kept.
  - intros [= <-]. constructor.
  - cbn [keptOf]. destruct (keepsSection lines section) as [keep|]; [|done].
    destruct (keptOf rest lines) as [kept'|]; [|done]. intros [= <-].
    destruct keep; simpl; constructor; by apply IH.
Qed.

(** *** A read within the file succeeds *)

Lemma elemAt_is_Some {A} (l : list A) i :
  is_Some (elemAt l i) ↔ 0 ≤ i < Z.of_nat (length l).
Proof.
  unfold elemAt. destruct (decide (0 ≤ i)).
  - rewrite lookup_lt_is_Some. lia.
  - split; [by intros [? [=]]|lia].
Qed.

Lemma ignoredAt_is_Some lines n :
  1 ≤ n ≤ Z.of_nat (length lines) → is_Some (ignoredAt lines n).
Proof.
  intros Hn. unfold ignoredAt.
  destruct (proj2 (elemAt_is_Some lines (n - 1))) as [line ->]; [lia|].
  cbn [mbind option_bind]. destruct (MatchString anyInlineIgnore line); [done|].
  destruct (decide (n >= 2)); [|done].
  destruct (proj2 (elemAt_is_Some lines (n - 2))) as [above ->]; [lia|]. done.
Qed.

(** Within the file the loop ends, and it drops the region exactly when
    some turn breaks. *)
Lemma keeps_covered fuel lines section n :
  fuel = Z.to_nat (endLine section - n + 1) →
  1 ≤ n → endLine section ≤ Z.of_nat (length lines) →
  ∃ keep, keeps fuel lines section n = Some keep
    ∧ (keep = false ↔
       n > endLine section
       ∨ ∃ m, n ≤ m ≤ endLine section ∧ ignoredAt lines m = Some true).
Proof.
  revert n. induction fuel as [|fuel IH]; intros n Hfuel Hn Hend.
  - exists false. split; [done|]. split; [|done]. intros _. left. lia.
  - cbn [keeps]. rewrite decide_True by lia.
    destruct (ignoredAt_is_Some lines n) as [ignored Hi]; [lia|]. rewrite Hi.
    cbn [mbind option_bind]. destruct ignored.
    + exists false. split; [done|]. split; [|done]. intros _. right.
      exists n. split; [lia|done].
    + destruct (decide (n = endLine section)) as [->|Hne].
      * exists true. split; [done|]. split; [done|].
        intros [Hgt|(m & Hm & Him)]; [lia|].
        assert (m = endLine section) as -> by lia. congruence.
      * destruct (IH (n + 1)) as (keep & Hk & Hiff); [lia..|].
        exists keep. split; [done|]. rewrite Hiff. split.
        -- intros [Hgt|(m & Hm & Him)]; [lia|]. right. exists m. split; [lia|done].
        -- intros [Hgt|(m & Hm & Him)]; [lia|]. right. exists m. split; [|done].
           destruct (decide (m = n)) as [->|]; [congruence|lia].
Qed.

(** A turn of the loop breaks exactly on a marker on the line or a marker
    line above it. *)
Lemma ignoredAt_true lines n :
  ignoredAt lines n = Some true ↔
  ∃ line, Spec.lineAt lines n = Some line
    ∧ (Spec.hasMarker line
       ∨ ∃ above, Spec.lineAt lines (n - 1) = Some above ∧ Spec.isMarkerLine above).
Proof.
  unfold ignoredAt, Spec.lineAt. replace (n - 1 - 1) with (n - 2) by lia.
  destruct (elemAt lines (n - 1)) as [line|]; cbn [mbind option_bind];
    [|split; [done|by intros (? & [=] & _)]].
  destruct (MatchString anyInlineIgnore line) eqn:Hany.
  - split; [|done]. intros _. exists line. split; [done|]. left.
    by apply MatchString_anyInlineIgnore.
  - assert (Hno : ¬ Spec.hasMarker line).
    { intros Hm. apply MatchString_anyInlineIgnore in Hm. congruence. }
    destruct (decide (n >= 2)).
    + destruct (elemAt lines (n - 2)) as [above|]; cbn [mbind option_bind].
      * split.
        -- intros [= Hs]. exists line. split; [done|]. right. exists above.
           split; [done|]. by apply MatchString_startsWithInlineIgnore.
        -- intros (? & [= <-] & [Hm|(? & [= <-] & Hm)]); [done|].
           f_equal. by apply MatchString_startsWithInlineIgnore.
      * split; [done|]. intros (? & [= <-] & [Hm|(? & [=] & _)]). done.
    + split; [done|]. intros (? & [= <-] & [Hm|(above & Ha & _)]); [done|].
      assert (His : is_Some (elemAt lines (n - 2))) by (by eexists).
      apply elemAt_is_Some in His. lia.
Qed.

Lemma suppressed_ignoredAt lines section :
  Spec.covered lines section →
  Spec.suppressed section lines ↔
  ∃ m, startLine section ≤ m ≤ endLine section ∧ ignoredAt lines m = Some true.
Proof.
  intros (Hs & Hse & He). unfold Spec.suppressed. split.
  - intros [(n & line & Hn & Hl & Hm)|(above & Ha & Hm)].
    + exists n. split; [done|]. apply ignoredAt_true. eauto.
    + exists (startLine section). split; [lia|]. apply ignoredAt_true.
      destruct (proj2 (elemAt_is_Some lines (startLine section - 1))) as [line Hl]; [lia|].
      exists line. split; [done|]. right. eauto.
  - intros (m & Hm & Hi). apply ignoredAt_true in Hi as (line & Hl & [Hmk|(above & Ha & Hmk)]).
    + left. eauto.
    + destruct (decide (m = startLine section)) as [->|Hne].
      * right. eauto.
      * left. exists (m - 1), above. split; [lia|]. split; [done|].
        by apply isMarkerLine_hasMarker.
Qed.

Lemma keepsSection_covered lines section :
  Spec.covered lines section →
  (Spec.suppressed section lines ∧ keepsSection lines section = Some false)
  ∨ (¬ Spec.suppressed section lines ∧ keepsSection lines section = Some true).
Proof.
  intros Hc. pose proof Hc as (Hs & Hse & He).
  destruct (keeps_covered (Z.to_nat (endLine section - startLine section + 1))
              lines section (startLine section)) as (keep & Hk & Hiff); [done..|].
  unfold keepsSection. rewrite Hk. rewrite (suppressed_ignoredAt _ _ Hc).
  destruct keep.
  - right. split; [|done]. intros Hm.
    assert (true = false); [|done]. apply Hiff. by right.
  - left. split; [|done]. destruct (proj1 Hiff eq_refl) as [Hgt|Hm]; [lia|done].
Qed.

(** *** Adding a marker to a line *)

Lemma elemAt_moreMarked lines lines' i line :
  moreMarked lines lines' → elemAt lines i = Some line →
  ∃ line', elemAt lines' i = Some line'
    ∧ (MatchString anyInlineIgnore line = true
       → MatchString anyInlineIgnore line' = true)
    ∧ (MatchString startsWithInlineIgnore line = true
       → MatchString startsWithInlineIgnore line' = true).
Proof.
  intros [_ Hm]. unfold elemAt. destruct (decide (0 ≤ i)); [|done]. apply Hm.
Qed.

Lemma elemAt_moreMarked_None lines lines' i :
  moreMarked lines lines' → elemAt lines' i = None → elemAt lines i = None.
Proof.
  intros [Hlen _]. unfold elemAt. destruct (decide (0 ≤ i)); [|done].
  rewrite !lookup_ge_None. lia.
Qed.

Lemma ignoredAt_mono lines lines' n ignored :
  moreMarked lines lines' → ignoredAt lines n = Some ignored →
  ∃ ignored', ignoredAt lines' n = Some ignored'
    ∧ (ignored = true → ignored' = true).
Proof.
  intros Hm. unfold ignoredAt.
  destruct (elemAt lines (n - 1)) as [line|] eqn:Hl; [|done].
  destruct (elemAt_moreMarked _ _ _ _ Hm Hl) as (line' & -> & Hany & _).
  cbn [mbind option_bind].
  destruct (MatchString anyInlineIgnore line).
  - intros [= <-]. rewrite Hany by done. eauto.
  - destruct (MatchString anyInlineIgnore line'); [intros _; by eexists|].
    destruct (decide (n >= 2)); [|by eauto].
    destruct (elemAt lines (n - 2)) as [above|] eqn:Ha; [|done].
    destruct (elemAt_moreMarked _ _ _ _ Hm Ha) as (above' & -> & _ & Hst).
    cbn [mbind option_bind]. intros [= <-]. eauto.
Qed.

Lemma keeps_mono fuel lines lines' section n keep :
  moreMarked lines lines' → keeps fuel lines section n = Some keep →
  ∃ keep', keeps fuel lines' section n = Some keep'
    ∧ (keep = false → keep' = false).
Proof.
  intros Hm. revert n. induction fuel as [|fuel IH]; intros n; [by eauto|].
  cbn [keeps]. destruct (decide (n ≤ endLine section)); [|by eauto].
  destruct (ignoredAt lines n) as [ignored|] eqn:Hi; [|done].
  destruct (ignoredAt_mono _ _ _ _ Hm Hi) as (ignored' & -> & Himp).
  cbn [mbind option_bind]. destruct ignored.
  - rewrite Himp by done. eauto.
  - destruct ignored'; [intros _; by eauto|].
    destruct (decide (n = endLine section)); [|by apply IH].
    intros [= <-]. by eauto.
Qed.

Lemma keptOf_mono sections lines lines' kept :
  moreMarked lines lines' → keptOf sections lines = Some kept →
  ∃ kept', keptOf sections lines' = Some kept' ∧ sublist kept' kept.
Proof.
  intros Hm. revert kept. induction sections as [|section rest IH]; intros kept.
  - intros [= <-]. by eexists.
  - cbn [keptOf]. destruct (keepsSection lines section) as [keep|] eqn:Hk; [|done].
    destruct (keeps_mono _ _ _ _ _ _ Hm Hk) as (keep' & Hk' & Himp).
    unfold keepsSection at 1. rewrite Hk'. cbn [mbind option_bind].
    destruct (keptOf rest lines) as [kept0|]; [|done].
    destruct (IH kept0 eq_refl) as (kept0' & -> & Hsub).
    cbn [mbind option_bind]. intros [= <-]. eexists. split; [done|].
    destruct keep.
    + destruct keep'; simpl; by constructor.
    + rewrite Himp by done. done.
Qed.

(** A marker appended to a line keeps the markers the line had. *)
Lemma hasMarker_append old marker :
  Spec.hasMarker marker → Spec.hasMarker (old ++ marker).
Proof.
  intros (code & s & -> & Hm). exists (old ++ code), s. by rewrite <- app_assoc.
Qed.

Lemma isMarkerLine_append old marker :
  Spec.hasMarker marker → nl ∉ marker →
  Spec.isMarkerLine old → Spec.isMarkerLine (old ++ marker).
Proof.
  intros (code & s' & -> & a' & post' & -> & Ha' & Hend') Hnl
         (ws & s & -> & Hws & a & post & -> & Ha & Hend).
  exists ws. destruct Hend as [->|(c & rest & -> & Hc)].
  - exists ($"//" ++ (a ++ $"untested section" ++ code ++ $"//" ++ a')
              ++ $"untested section" ++ post').
    split; [by rewrite <- !app_assoc|]. split; [done|].
    exists (a ++ $"untested section" ++ code ++ $"//" ++ a'), post'.
    split; [done|]. split; [|done].
    rewrite !not_elem_of_app. split; [done|]. split.
    { intros Hin. by repeat (apply elem_of_cons in Hin as [Hin|Hin]; [done|]);
        apply elem_of_nil in Hin. }
    split; [|split; [|done]].
    + intros Hin. apply Hnl. apply elem_of_app. by left.
    + intros Hin. by repeat (apply elem_of_cons in Hin as [Hin|Hin]; [done|]);
        apply elem_of_nil in Hin.
  - exists ($"//" ++ a ++ $"untested section" ++ c :: rest
              ++ code ++ $"//" ++ a' ++ $"untested section" ++ post').
    split; [by rewrite <- !app_assoc|]. split; [done|].
    exists a, (c :: rest ++ code ++ $"//" ++ a' ++ $"untested section" ++ post').
    split; [done|]. split; [done|]. right. eauto.
Qed.

Lemma moreMarked_append lines k old marker :
  lines !! k = Some old →
  MatchString anyInlineIgnore marker = true → nl ∉ marker →
  moreMarked lines (<[k := old ++ marker]> lines).
Proof.
  intros Hk Hm Hnl. apply MatchString_anyInlineIgnore in Hm.
  split; [apply length_insert|]. intros i line Hi.
  destruct (decide (i = k)) as [->|Hne].
  - rewrite list_lookup_insert_eq by (by eapply lookup_lt_Some).
    assert (line = old) as -> by congruence.
    eexists. split; [done|]. split.
    + intros _. apply MatchString_anyInlineIgnore. by apply hasMarker_append.
    + intros Hs. apply MatchString_startsWithInlineIgnore.
      apply isMarkerLine_append; [done..|].
      by apply MatchString_startsWithInlineIgnore.
  - rewrite list_lookup_insert_ne by done. eauto.
Qed.

(** *** The reads of the filter *)

Lemma scanSection_reads fuel lines section n sections :
  startLine section ≤ n →
  Forall (readOf section) (fst (scanSection fuel lines section n sections)).
Proof.
  revert n sections. induction fuel as [|fuel IH]; intros n sections Hn; [constructor|].
  cbn [scanSection]. destruct (decide (n ≤ endLine section)); [|constructor].
  rewrite fst_tbind. unfold readLine at 1 2. cbn [fst snd]. constructor.
  { split; [lia|]. by left. }
  destruct (elemAt lines (n - 1)) as [line|]; [|constructor].
  destruct (MatchString anyInlineIgnore line); [constructor|].
  rewrite fst_tbind. apply Forall_app. split.
  - destruct (decide (n >= 2)); [|constructor].
    rewrite fst_tbind. unfold readLine. cbn [fst snd]. constructor.
    { split; [lia|]. right. done. }
    destruct (elemAt lines (n - 2)); constructor.
  - destruct (snd _) as [[]|]; [constructor| |constructor].
    destruct (decide (n = endLine section)); apply IH; lia.
Qed.

Lemma removeLoop_reads sections lines kept0 :
  Forall (λ a, ∃ section, section ∈ sections ∧ readOf section a)
    (fst (removeLoop sections lines kept0)).
Proof.
  revert kept0. induction sections as [|section rest IH]; intros kept0; [constructor|].
  cbn [removeLoop]. rewrite fst_tbind. apply Forall_app. split.
  - eapply Forall_impl; [apply scanSection_reads; lia|].
    intros a Ha. exists section. split; [left|done].
  - destruct (snd _) as [kept|]; [|constructor].
    eapply Forall_impl; [apply IH|]. intros a (s & Hs & Ha).
    exists s. split; [by right|done].
Qed.

Lemma keptOf_covered sections lines :
  Forall (Spec.covered lines) sections → is_Some (keptOf sections lines).
Proof.
  induction 1 as [|section rest Hc _ IH]; [done|]. cbn [keptOf].
  destruct (keepsSection_covered _ _ Hc) as [[_ ->]|[_ ->]];
    destruct IH as [kept ->]; done.
Qed.

(** ** The path resolver *)

Lemma split_on_no_sep c s : Forall (λ piece, c ∉ piece) (Spec.split_on c s).
Proof.
  induction s as [|x s IH]; [repeat constructor; apply not_elem_of_nil|].
  cbn [Spec.split_on]. destruct (decide (x = c)) as [->|Hne].
  - constructor; [apply not_elem_of_nil|done].
  - destruct (Spec.split_on c s) as [|piece pieces].
    + repeat constructor. by intros [| []%elem_of_nil]%elem_of_cons.
    + inversion IH as [|?? Hp Hps]; subst. constructor; [|done].
      by intros [|]%elem_of_cons.
Qed.

Lemma Join_app l1 l2 sep :
  l1 ≠ [] → l2 ≠ [] →
  GoStrings.Join (l1 ++ l2) sep = GoStrings.Join l1 sep ++ sep ++ GoStrings.Join l2 sep.
Proof.
  intros H1 H2. induction l1 as [|e l1 IH]; [done|].
  destruct l1 as [|e' l1].
  - simpl. by destruct l2.
  - change ((e :: e' :: l1) ++ l2) with (e :: ((e' :: l1) ++ l2)).
    rewrite !Join_cons by done. rewrite IH by done. by rewrite <- !app_assoc.
Qed.

(** Splitting a joined list of pieces gives the pieces back. *)
Lemma split_on_Join c pieces :
  pieces ≠ [] → Forall (λ piece, c ∉ piece) pieces →
  Spec.split_on c (GoStrings.Join pieces [c]) = pieces.
Proof.
  intros Hne Hall. induction Hall as [|piece rest Hp Hrest IH]; [done|].
  destruct rest as [|piece' rest].
  - simpl. by apply split_on_notin.
  - rewrite Join_cons by done. cbn [app]. rewrite split_on_app by done.
    by rewrite IH.
Qed.

Lemma count_le_length c (s : str) :
  (length (filter (λ x, x = c) s) ≤ length s)%nat.
Proof. apply length_filter. Qed.

(** [SplitN] with a limit of four, on a path of at most three segments and
    on a longer one. *)
Lemma SplitN_4_short path :
  (length (Spec.segments path) ≤ 3)%nat →
  GoStrings.SplitN path [PathSeparator] 4 = Spec.segments path.
Proof.
  intros Hlen. unfold GoStrings.SplitN, Spec.segments in *.
  rewrite decide_False, decide_False by lia.
  apply genSplit_all. rewrite length_split_on in Hlen.
  pose proof (count_le_length PathSeparator path). lia.
Qed.

Lemma SplitN_4_long path :
  (3 < length (Spec.segments path))%nat →
  GoStrings.SplitN path [PathSeparator] 4 =
  take 3 (Spec.segments path)
    ++ [GoStrings.Join (drop 3 (Spec.segments path)) [PathSeparator]].
Proof.
  intros Hlen. unfold GoStrings.SplitN, Spec.segments in *.
  rewrite decide_False, decide_False by lia.
  pose proof (count_le_length PathSeparator path).
  rewrite length_split_on in Hlen.
  replace (Z.to_nat (4 `min` (Z.of_nat (length path) + 1)) - 1)%nat with 3%nat by lia.
  apply genSplit_some. rewrite length_split_on. lia.
Qed.

Lemma SplitN_4_length path :
  (length (GoStrings.SplitN path [PathSeparator] 4) ≤ 3)%nat
  ↔ (length (Spec.segments path) ≤ 3)%nat.
Proof.
  destruct (decide (length (Spec.segments path) ≤ 3)%nat) as [Hle|Hgt].
  - by rewrite SplitN_4_short.
  - rewrite SplitN_4_long by lia. rewrite length_app, length_take. cbn [length]. lia.
Qed.

(** A path of more than three segments is its module prefix, a separator,
    and the rest. *)
Lemma path_prefix_rest path :
  (3 < length (Spec.segments path))%nat →
  path = Spec.modulePrefix path ++ [PathSeparator]
           ++ GoStrings.Join (drop 3 (Spec.segments path)) [PathSeparator].
Proof.
  intros Hlen. unfold Spec.modulePrefix.
  rewrite <- Join_app.
  - rewrite take_drop. unfold Spec.segments. by rewrite Join_split_on.
  - intros Ht. apply (f_equal length) in Ht. rewrite length_take in Ht.
    cbn [length] in Ht. lia.
  - intros Ht. apply (f_equal length) in Ht. rewrite length_drop in Ht.
    cbn [length] in Ht. lia.
Qed.

Lemma SplitN_2_prefix sep rest :
  sep ≠ [] →
  elemAt (GoStrings.SplitN (sep ++ rest) sep 2) 1 = Some rest.
Proof.
  intros Hsep. unfold GoStrings.SplitN.
  rewrite decide_False, decide_False by lia.
  assert (Hl : (1 ≤ length (sep ++ rest))%nat).
  { rewrite length_app. destruct sep; [done|simpl; lia]. }
  replace (Z.to_nat (2 `min` (Z.of_nat (length (sep ++ rest)) + 1)) - 1)%nat
    with 1%nat by lia.
  cbn [GoStrings.genSplit]. rewrite Index_prefix. simpl.
  by rewrite drop_app_length.
Qed.

Lemma findFileLoop_firstOnDisk w parts :
  Spec.firstOnDisk w parts (findFileLoop w parts).
Proof.
  induction parts as [|part rest IH].
  - exists 0%nat. split; [done|]. split; [done|]. split; intros; simpl in *; lia.
  - cbn [findFileLoop].
    destruct (Stat w (GoStrings.Join (part :: rest) [PathSeparator])) eqn:Hs.
    1: { exists 0%nat. split; [done|]. split; [simpl; lia|].
         split; [intros; lia|]. intros _. done. }
    all: destruct IH as (k & -> & Hk & Hbefore & Hat);
      exists (S k); (split; [done|]); (split; [simpl; lia|]); split.
    all: try (intros [|j] Hj; [unfold Spec.onDisk; simpl drop; congruence|];
              simpl; apply Hbefore; lia).
    all: intros Hlt; apply Hat; simpl in Hlt; lia.
Qed.

Lemma findFile_demodularized w path :
  (3 < length (Spec.segments path))%nat →
  Spec.demodularized w path
    (findFile w (GoStrings.Join (drop 3 (Spec.segments path)) [PathSeparator])).
Proof.
  intros Hlen. unfold findFile. rewrite Split_byte, split_on_Join.
  - eexists. split; [apply findFileLoop_firstOnDisk|done].
  - intros Ht. apply (f_equal length) in Ht. rewrite length_drop in Ht.
    cbn [length] in Ht. lia.
  - apply Forall_drop, split_on_no_sep.
Qed.

Lemma joinPath_candidate buildRoot path :
  joinPath [buildRoot; $"src"; path] = Spec.candidate buildRoot path.
Proof. done. Qed.

(** The resolver on a long path, before the case distinction on the build
    root. *)
Lemma normalizeCoveredPath_long w path wd :
  (3 < length (Spec.segments path))%nat →
  ∃ d, Spec.demodularized w path d
    ∧ normalizeCoveredPath w path wd =
      match GOPATH w with
      | None => Some (d, d)
      | Some buildRoot =>
          if IsNotExist (Stat w (Spec.candidate buildRoot path)) then Some (d, d)
          else if GoStrings.HasSuffix wd (Spec.modulePrefix path)
               then Some (d, Spec.candidate buildRoot path)
               else Some (path, Spec.candidate buildRoot path)
      end.
Proof.
  intros Hlen. eexists. split; [by apply findFile_demodularized|].
  unfold normalizeCoveredPath. cbn zeta. change (3 + 1) with 4.
  rewrite SplitN_4_long by done.
  rewrite decide_False by (rewrite length_app, length_take; cbn [length]; lia).
  replace (take (Z.to_nat 3) (take 3 (Spec.segments path) ++ _))
    with (take 3 (Spec.segments path)).
  2: { change (Z.to_nat 3) with 3%nat. rewrite take_app_le by (rewrite length_take; lia).
       by rewrite take_take. }
  fold (Spec.modulePrefix path).
  assert (Hrest : ∀ p pre rest, p = pre ++ [PathSeparator] ++ rest →
            elemAt (GoStrings.SplitN p (pre ++ [PathSeparator]) 2) 1 = Some rest).
  { intros p pre rest ->. rewrite app_assoc. apply SplitN_2_prefix. by destruct pre. }
  rewrite (Hrest _ _ _ (path_prefix_rest path Hlen)).
  cbn [mbind option_bind]. rewrite joinPath_candidate.
  destruct (GOPATH w) as [buildRoot|]; simpl; [|done].
  by destruct (IsNotExist _).
Qed.

Lemma normalizeCoveredPath_short w path wd :
  (length (Spec.segments path) ≤ 3)%nat →
  normalizeCoveredPath w path wd =
  match GOPATH w with
  | None => Some (path, path)
  | Some buildRoot =>
      if IsNotExist (Stat w (Spec.candidate buildRoot path)) then Some (path, path)
      else Some (path, Spec.candidate buildRoot path)
  end.
Proof.
  intros Hlen. unfold normalizeCoveredPath. cbn zeta. change (3 + 1) with 4.
  rewrite decide_True by (rewrite <- SplitN_4_length in Hlen; lia).
  rewrite joinPath_candidate.
  destruct (GOPATH w) as [buildRoot|]; simpl; [|done].
  by destruct (IsNotExist _).
Qed.

(** ** Sorting and printing *)

Lemma insert_Permutation {A} (less : A → A → bool) x l :
  GoSort.insert less x l ≡ₚ x :: l.
Proof.
  induction l as [|y l IH]; [done|]. simpl. destruct (less x y); [done|].
  rewrite IH. apply Permutation_swap.
Qed.

Lemma Slice_Permutation {A} (less : A → A → bool) l : GoSort.Slice l less ≡ₚ l.
Proof.
  unfold GoSort.Slice.
  assert (H : ∀ sorted, foldl (λ sorted x, GoSort.insert less x sorted) sorted l
                        ≡ₚ sorted ++ l).
  { induction l as [|x l IH]; intros sorted; simpl; [by rewrite app_nil_r|].
    rewrite IH, insert_Permutation. apply Permutation_middle. }
  apply (H []).
Qed.

Lemma insert_Sorted x l :
  Sorted bySortValue l → Sorted bySortValue (GoSort.insert lessSortValue x l).
Proof.
  induction 1 as [|y l Hl IH Hy]; [repeat constructor|].
  simpl. unfold lessSortValue at 1. case_bool_decide as Hlt.
  - repeat constructor; [done..|]. unfold bySortValue. lia.
  - constructor; [done|]. destruct l as [|z l]; simpl.
    + constructor. unfold bySortValue. lia.
    + unfold lessSortValue. case_bool_decide.
      * constructor. unfold bySortValue. lia.
      * constructor. by inversion Hy.
Qed.

Lemma Slice_Sorted l : Sorted bySortValue (GoSort.Slice l lessSortValue).
Proof.
  unfold GoSort.Slice.
  assert (H : ∀ sorted, Sorted bySortValue sorted →
            Sorted bySortValue
              (foldl (λ sorted x, GoSort.insert lessSortValue x sorted) sorted l)).
  { induction l as [|x l IH]; intros sorted Hs; [done|]. simpl.
    by apply IH, insert_Sorted. }
  apply H. constructor.
Qed.

Lemma Sorted_sortValue l :
  Sorted bySortValue l → Sorted Z.le (sortValue <$> l).
Proof.
  induction 1 as [|y l Hl IH Hy]; [constructor|]. simpl. constructor; [done|].
  destruct Hy; simpl; by constructor.
Qed.

Lemma stderr_foldl_Fprint {A} (f : A → str) (l : list A) st :
  stderr (foldl (λ st x, Fprint (f x) st) st l) = stderr st ++ (f <$> l)
  ∧ exitCode (foldl (λ st x, Fprint (f x) st) st l) = exitCode st.
Proof.
  revert st. induction l as [|x l IH]; intros st; simpl.
  - by rewrite app_nil_r.
  - destruct (IH (Fprint (f x) st)) as [-> ->]. simpl. by rewrite <- app_assoc.
Qed.

Lemma printUntestedSections_stderr Location sections displayPath details st :
  stderr (printUntestedSections Location sections displayPath details st) =
  stderr st
    ++ [displayPath ++ $" new untested sections introduced " ++ details ++ [nl]]
    ++ ((λ section, displayPath ++ $":" ++ Location section ++ [nl])
          <$> GoSort.Slice sections lessSortValue).
Proof.
  unfold printUntestedSections.
  pose proof (stderr_foldl_Fprint
    (λ section, displayPath ++ $":" ++ Location section ++ [nl])
    (GoSort.Slice sections lessSortValue)
    (Fprint (displayPath ++ $" new untested sections introduced " ++ details ++ [nl]) st))
    as [H _].
  etrans; [apply H|]. simpl. by rewrite <- app_assoc.
Qed.

Lemma printUntestedSections_exitCode Location sections displayPath details st :
  exitCode (printUntestedSections Location sections displayPath details st)
  = exitCode st.
Proof.
  unfold printUntestedSections.
  pose proof (stderr_foldl_Fprint
    (λ section, displayPath ++ $":" ++ Location section ++ [nl])
    (GoSort.Slice sections (λ i j, bool_decide (sortValue i < sortValue j)))
    (Fprint (displayPath ++ $" new untested sections introduced " ++ details ++ [nl]) st))
    as [_ H].
  etrans; [apply H|]. done.
Qed.

#[local] Instance Zle_antisymm : AntiSymm (=) Z.le.
Proof. intros x y ??. lia. Qed.

Lemma sorted_values_unique l1 l2 :
  l1 ≡ₚ l2 →
  sortValue <$> GoSort.Slice l1 lessSortValue
  = sortValue <$> GoSort.Slice l2 lessSortValue.
Proof.
  intros Hp. apply (Sorted_unique Z.le).
  - apply Sorted_sortValue, Slice_Sorted.
  - apply Sorted_sortValue, Slice_Sorted.
  - apply fmap_Permutation. by rewrite !Slice_Permutation.
Qed.

(** ** The profile parser *)

Lemma parser_loop (NewSection : str → Section) lines sections :
  foldl (λ sections line,
      if GoStrings.HasSuffix line $" 0"
      then sections ++ [NewSection line] else sections)
    sections lines
  = sections ++ (NewSection <$> filter Spec.endsInSpaceZero lines).
Proof.
  revert sections. induction lines as [|line lines IH]; intros sections; cbn [foldl].
  - rewrite filter_nil. simpl. by rewrite app_nil_r.
  - rewrite IH. destruct (GoStrings.HasSuffix line $" 0") eqn:Hs.
    + apply HasSuffix_spec in Hs. rewrite filter_cons_True by done.
      simpl. by rewrite <- app_assoc.
    + rewrite filter_cons_False; [done|]. intros He.
      apply HasSuffix_spec in He. congruence.
Qed.

Lemma untestedSectionsOf_recordLines (NewSection : str → Section) content :
  untestedSectionsOf NewSection content
  = NewSection <$> filter Spec.endsInSpaceZero (Spec.recordLines content).
Proof.
  unfold untestedSectionsOf, splitWithoutEmpty, Spec.recordLines.
  rewrite Split_byte.
  destruct (filter (λ piece, piece ≠ []) (Spec.split_on nl content)) as [|mode lines];
    [done|].
  cbn [tail]. apply (parser_loop NewSection lines []).
Qed.

Lemma tokens_go_space_zero cur front :
  last (Spec.tokens_go cur (front ++ $" 0")) = Some ($"0").
Proof.
  revert cur. induction front as [|c front IH]; intros cur.
  - simpl. by destruct (decide (cur = [])).
  - cbn [app Spec.tokens_go]. destruct (is_space c); [|apply IH].
    destruct (decide (cur = [])); [apply IH|].
    specialize (IH []). destruct (Spec.tokens_go [] (front ++ $" 0")); [done|].
    done.
Qed.

(** A line that ends with a space and [0] has ["0"] as its last token. *)
Lemma endsInSpaceZero_zeroHitToken line :
  Spec.endsInSpaceZero line → Spec.zeroHitToken line.
Proof. intros [front ->]. apply tokens_go_space_zero. Qed.

(** ** Grouping and the exit code *)

Lemma groupSectionsByPath_snoc sections section :
  groupSectionsByPath (sections ++ [section]) =
  <[path section := default [] (groupSectionsByPath sections !! path section)
                      ++ [section]]>
    (if decide (is_Some (groupSectionsByPath sections !! path section))
     then groupSectionsByPath sections
     else <[path section := []]> (groupSectionsByPath sections)).
Proof. unfold groupSectionsByPath. by rewrite foldl_app. Qed.

(** Each group holds the regions of its path, in the profile's order. *)
Lemma groupSectionsByPath_lookup sections file :
  groupSectionsByPath sections !! file =
  if decide (sectionsOf file sections = []) then None
  else Some (sectionsOf file sections).
Proof.
  induction sections as [|section sections IH] using rev_ind; [done|].
  rewrite groupSectionsByPath_snoc. unfold sectionsOf in *. rewrite filter_app.
  destruct (decide (path section = file)) as [<-|Hne].
  - rewrite lookup_insert_eq, IH. rewrite filter_cons_True, filter_nil by done.
    rewrite (decide_False (P := _ ++ _ = [])) by (by intros [_ [=]]%app_eq_nil).
    by destruct (decide (filter _ sections = [])) as [->|].
  - rewrite lookup_insert_ne by done.
    rewrite filter_cons_False, filter_nil, app_nil_r by done.
    destruct (decide (is_Some _)); [done|]. by rewrite lookup_insert_ne.
Qed.

Lemma exitCode_Fprint text st : exitCode (Fprint text st) = exitCode st.
Proof. done. Qed.

(** The comparison sets the exit code to 1 exactly when the file is over
    its budget, and leaves it alone otherwise. *)
Lemma compareWithBudget_exitCode Location w wd file sections st st' :
  compareWithBudget Location w wd file sections st = Some st' →
  ∃ displayPath readPath content kept configured atLine,
    normalizeCoveredPath w file wd = Some (displayPath, readPath)
    ∧ files w readPath = Some content
    ∧ removeSectionsMarkedWithInlineComment sections
        (Spec.split_on nl content) = Some kept
    ∧ configuredUntestedOf content = Some (configured, atLine)
    ∧ exitCode st' =
        if decide (Z.of_nat (length kept) > configured)
        then 1 else exitCode st.
Proof.
  unfold compareWithBudget, configuredUntestedForFile, readFile.
  destruct (normalizeCoveredPath w file wd) as [[displayPath readPath]|]; [|done].
  cbn [mbind option_bind].
  destruct (files w readPath) as [content|] eqn:Hf; [|done].
  cbn [mbind option_bind]. rewrite Split_byte.
  destruct (configuredUntestedOf content) as [[configured atLine]|] eqn:Hc; [|done].
  cbn [mbind option_bind].
  destruct (removeSectionsMarkedWithInlineComment sections _) as [kept|] eqn:Hk;
    [|done].
  cbn [mbind option_bind]. intros Hst.
  exists displayPath, readPath, content, kept, configured, atLine.
  repeat (split; [done|]).
  repeat case_decide; simplify_eq; try done; try lia.
Qed.

Lemma checkPath_exitCode Location w wd file sections st st' :
  checkPath Location w wd file sections st = Some st' →
  (overBudget w wd file sections ∧ exitCode st' = 1)
  ∨ (¬ overBudget w wd file sections ∧ exitCode st' = exitCode st).
Proof.
  unfold checkPath. destruct (MatchString generatedFile file) eqn:Hg.
  - intros [= <-]. right. split; [|done]. intros [Hn _]. apply Hn.
    by apply MatchString_generatedFile.
  - intros Hc. apply compareWithBudget_exitCode in Hc
      as (displayPath & readPath & content & kept & configured & atLine
          & Hn & Hf & Hk & Hb & He).
    case_decide as Hgt.
    + left. split; [|done]. split.
      * intros Hgen. apply MatchString_generatedFile in Hgen. congruence.
      * exists displayPath, readPath, content, kept. eauto 10.
    + right. split; [|done].
      intros [_ (dp & rp & c & k & Hn' & Hf' & Hk' & cfg & al & Hb' & Hgt')].
      by simplify_eq.
Qed.

Lemma foldl_callback_None (data : gmap str (list Section))
    (fn : str → list Section → RunState → option RunState) keys :
  foldl (λ acc key, st' ← acc; fn key (default [] (data !! key)) st') None keys
  = None.
Proof. by induction keys. Qed.

Lemma iterate_exitCode (Location : Section → str) (w : World) (wd : str)
    (data : gmap str (list Section)) (keys : list str) (st st' : RunState) :
  foldl (λ acc key, st' ← acc;
           checkPath Location w wd key (default [] (data !! key)) st')
    (Some st) keys = Some st' →
  (exitCode st' = 1 ↔
   exitCode st = 1
   ∨ ∃ key, key ∈ keys ∧ overBudget w wd key (default [] (data !! key)))
  ∧ (exitCode st' = exitCode st ∨ exitCode st' = 1).
Proof.
  revert st. induction keys as [|key keys IH]; intros st.
  - intros [= <-]. split; [|by left]. split; [by left|].
    intros [|(key & []%elem_of_nil & _)]. done.
  - cbn [foldl mbind option_bind].
    destruct (checkPath Location w wd key (default [] (data !! key)) st)
      as [st1|] eqn:Hc; [|by rewrite foldl_callback_None].
    intros Hf. destruct (IH _ Hf) as [Hiff Hor].
    apply checkPath_exitCode in Hc as [[Hover H1]|[Hnot H1]].
    + split; [|right; destruct Hor; congruence]. split.
      * intros _. right. exists key. split; [left|done].
      * intros _. apply Hiff. by left.
    + rewrite H1 in *. split; [|done]. rewrite Hiff. split.
      * intros [|(k & Hk & Ho)]; [by left|]. right. exists k. split; [by right|done].
      * intros [|(k & Hk & Ho)]; [by left|].
        apply elem_of_cons in Hk as [->|Hk]; [done|]. right. eauto.
Qed.

Lemma sorted_keys (data : gmap str (list Section)) key :
  key ∈ merge_sort str_le (map fst (map_to_list data)) ↔ is_Some (data !! key).
Proof.
  rewrite merge_sort_Permutation. change (map fst) with (fmap (M:=list) (@fst str (list Section))).
  rewrite list_elem_of_fmap. split.
  - intros ([k v] & -> & Hin). apply elem_of_map_to_list in Hin. by eexists.
  - intros [v Hv]. exists (key, v). split; [done|]. by apply elem_of_map_to_list.
Qed.

(** *** The run returns when its files can be read *)

Lemma normalizeCoveredPath_is_Some w file wd :
  is_Some (normalizeCoveredPath w file wd).
Proof.
  destruct (decide (length (Spec.segments file) ≤ 3)%nat) as [Hle|Hgt].
  - rewrite normalizeCoveredPath_short by done.
    destruct (GOPATH w); [|done]. by destruct (IsNotExist _).
  - destruct (normalizeCoveredPath_long w file wd) as (d & _ & ->); [lia|].
    destruct (GOPATH w); [|done]. destruct (IsNotExist _); [done|].
    by destruct (GoStrings.HasSuffix _ _).
Qed.

Lemma checkPath_is_Some Location w wd file sections st :
  (¬ Spec.generatedName file → readable w wd file sections) →
  is_Some (checkPath Location w wd file sections st).
Proof.
  intros Hr. unfold checkPath.
  destruct (MatchString generatedFile file) eqn:Hg; [done|].
  assert (Hn : ¬ Spec.generatedName file).
  { intros Hgen. apply MatchString_generatedFile in Hgen. congruence. }
  unfold compareWithBudget, configuredUntestedForFile, readFile.
  destruct (normalizeCoveredPath_is_Some w file wd) as [[displayPath readPath] Hp].
  rewrite Hp. cbn [mbind option_bind].
  destruct (Hr Hn _ _ Hp) as (content & Hfl & [[configured atLine] Hb] & Hc).
  rewrite Hfl. cbn [mbind option_bind]. rewrite Hb. cbn [mbind option_bind].
  rewrite Split_byte, removeSections_keptOf.
  destruct (keptOf_covered _ _ Hc) as [kept ->]. cbn [mbind option_bind].
  by repeat case_decide.
Qed.

Lemma iterate_is_Some (Location : Section → str) (w : World) (wd : str)
    (data : gmap str (list Section)) (keys : list str) (st : RunState) :
  (∀ key, key ∈ keys → ¬ Spec.generatedName key →
          readable w wd key (default [] (data !! key))) →
  is_Some (foldl (λ acc key, st' ← acc;
                    checkPath Location w wd key (default [] (data !! key)) st')
             (Some st) keys).
Proof.
  revert st. induction keys as [|key keys IH]; intros st Hr; [done|].
  cbn [foldl mbind option_bind].
  destruct (checkPath_is_Some Location w wd key (default [] (data !! key)) st)
    as [st1 ->].
  - apply Hr. left.
  - apply IH. intros k Hk. apply Hr. by right.
Qed.

(** [checkCoverage] returns when the profile can be read, the working
    directory is known, and the source of every file of the profile that is
    not generated can be read, has a budget that a Go [int] holds (or
    none), and holds the regions reported for it. *)
Lemma checkCoverage_returns (NewSection : str → Section)
    (Location : Section → str) (w : World) (coverageFilePath content wd : str) :
  files w coverageFilePath = Some content →
  Getwd w = Some wd →
  (∀ file, sectionsOf file (untestedSectionsOf NewSection content) ≠ [] →
           ¬ Spec.generatedName file →
           readable w wd file
             (sectionsOf file (untestedSectionsOf NewSection content))) →
  is_Some (checkCoverage NewSection Location w coverageFilePath).
Proof.
  intros Hf Hwd Hr. unfold checkCoverage, untestedSections, readFile.
  rewrite Hf, Hwd. cbn [mbind option_bind]. unfold iterateBySortedKey.
  destruct (iterate_is_Some Location w wd
              (groupSectionsByPath (untestedSectionsOf NewSection content))
              (merge_sort str_le
                 (map fst (map_to_list
                    (groupSectionsByPath (untestedSectionsOf NewSection content)))))
              {| stderr := []; exitCode := 0 |}) as [st' ->]; [|done].
  intros key Hk Hn. apply sorted_keys in Hk as [group Hg]. rewrite Hg.
  rewrite groupSectionsByPath_lookup in Hg. case_decide as He; [done|].
  injection Hg as <-. by apply Hr.
Qed.

(** ** The loop of the filter does not depend on its fuel

    The inner loop runs for the line numbers from [lineNumber] to
    [endLine]; any fuel of at least that many turns gives the same reads
    and the same value. *)
Lemma scanSection_fuel fuel lines section n sections :
  (Z.to_nat (endLine section - n + 1) ≤ fuel)%nat →
  scanSection fuel lines section n sections
  = scanSection (Z.to_nat (endLine section - n + 1)) lines section n sections.
Proof.
  revert n sections. induction fuel as [|fuel IH]; intros n sections Hfuel.
  - by replace (Z.to_nat (endLine section - n + 1)) with 0%nat by lia.
  - destruct (decide (n ≤ endLine section)) as [Hle|Hgt].
    + replace (Z.to_nat (endLine section - n + 1))
        with (S (Z.to_nat (endLine section - (n + 1) + 1))) by lia.
      cbn [scanSection]. destruct (decide (n ≤ endLine section)); [|done].
      unfold tbind, readLine.
      destruct (elemAt lines (n - 1)) as [line|]; [|done].
      destruct (MatchString anyInlineIgnore line); [done|].
      rewrite !(IH (n + 1)) by lia.
      destruct (decide (n >= 2)); [|done].
      destruct (elemAt lines (n - 2)) as [above|]; [|done]. done.
    + replace (Z.to_nat (endLine section - n + 1)) with 0%nat by lia.
      cbn [scanSection]. by rewrite decide_False.
Qed.

(** ** The budget comment, spelled out *)

Lemma skipWhile_app p pre suf :
  Forall (λ c, p c = true) pre →
  (∀ c, head suf = Some c → p c = false) →
  Spec.skipWhile p (pre ++ suf) = suf ∧ Spec.spanWhile p (pre ++ suf) = pre.
Proof.
  intros Hpre Hsuf. induction Hpre as [|c pre Hc _ IH].
  - destruct suf as [|c suf]; [done|]. simpl. by rewrite (Hsuf c).
  - simpl. rewrite Hc. destruct IH as [-> ->]. done.
Qed.

Lemma skipWhile_head p s c :
  head (Spec.skipWhile p s) = Some c → p c = false.
Proof.
  induction s as [|x s IH]; [done|]. simpl. destruct (p x) eqn:Hx; [done|].
  by intros [= <-].
Qed.

Lemma spanWhile_Forall p s : Forall (λ c, p c = true) (Spec.spanWhile p s).
Proof.
  induction s as [|x s IH]; [constructor|]. simpl.
  destruct (p x) eqn:Hx; by constructor.
Qed.

(** [budgetAt] reads [//], spaces, the phrase, spaces and the longest run of
    digits. *)
Lemma budgetAt_Some s digits rest :
  Spec.budgetAt s = Some (digits, rest) ↔
  ∃ sp1 sp2,
    s = $"//" ++ sp1 ++ $"untested sections:" ++ sp2 ++ digits ++ rest
    ∧ Forall (λ c, c = " "%char) sp1 ∧ Forall (λ c, c = " "%char) sp2
    ∧ digits ≠ [] ∧ Forall (λ c, is_digit c = true) digits
    ∧ (∀ c, head rest = Some c → is_digit c = false).
Proof.
  assert (Hblank : ∀ l, Forall (λ c, Spec.isBlank c = true) l
                        ↔ Forall (λ c, c = " "%char) l).
  { intros l. apply Forall_iff. intros c. unfold Spec.isBlank.
    by rewrite bool_decide_eq_true. }
  unfold Spec.budgetAt, Spec.budgetWith. split.
  - destruct (Spec.stripPrefix $"//" s) as [s1|] eqn:H1; [|done].
    apply stripPrefix_Some in H1 as ->. cbn [mbind option_bind].
    destruct (Spec.stripPrefix _ (Spec.skipWhile Spec.isBlank s1)) as [s2|] eqn:H2;
      [|done].
    apply stripPrefix_Some in H2. cbn [mbind option_bind].
    case_decide as Hd; [done|]. intros [= <- <-].
    exists (Spec.spanWhile Spec.isBlank s1), (Spec.spanWhile Spec.isBlank s2).
    split.
    { rewrite (span_skip is_digit), (span_skip Spec.isBlank s2), <- H2.
      by rewrite span_skip. }
    split; [apply Hblank, spanWhile_Forall|].
    split; [apply Hblank, spanWhile_Forall|].
    split; [done|]. split; [apply spanWhile_Forall|].
    intros c. apply skipWhile_head.
  - intros (sp1 & sp2 & -> & Hsp1 & Hsp2 & Hne & Hd & Hrest).
    assert (Spec.stripPrefix $"//"
              ($"//" ++ sp1 ++ $"untested sections:" ++ sp2 ++ digits ++ rest)
            = Some (sp1 ++ $"untested sections:" ++ sp2 ++ digits ++ rest)) as ->
      by (by apply stripPrefix_Some).
    cbn [mbind option_bind].
    destruct (skipWhile_app Spec.isBlank sp1
                ($"untested sections:" ++ sp2 ++ digits ++ rest)) as [-> _];
      [by apply Hblank|by intros c [= <-]|].
    assert (Spec.stripPrefix $"untested sections:"
              ($"untested sections:" ++ sp2 ++ digits ++ rest)
            = Some (sp2 ++ digits ++ rest)) as -> by (by apply stripPrefix_Some).
    cbn [mbind option_bind].
    destruct (skipWhile_app Spec.isBlank sp2 (digits ++ rest)) as [-> _];
      [by apply Hblank| |].
    { destruct digits as [|d digits]; [done|]. intros c [= <-].
      inversion Hd as [|?? Hdd _]; subst. unfold Spec.isBlank.
      apply bool_decide_eq_false. by intros ->. }
    destruct (skipWhile_app is_digit digits rest) as [-> ->]; [done..|].
    by rewrite decide_False.
Qed.

(** * The properties of the specification *)

(** ** The model on small inputs *)

Example patterns_compile :
  Compile inlineIgnore = Some anyInlineIgnore
  ∧ Compile ($"^\s*" ++ inlineIgnore) = Some startsWithInlineIgnore
  ∧ Compile ($"// *untested sections: *([0-9]+)") = Some perFileIgnore
  ∧ Compile ($"/*generated.*\.go$") = Some generatedFile.
Proof. repeat split; vm_compute; reflexivity. Qed.

Example marker_examples :
  MatchString anyInlineIgnore ($"x := 1 // untested section") = true
  ∧ MatchString anyInlineIgnore ($"x := 1 // an untested section, for now") = true
  ∧ MatchString anyInlineIgnore ($"x := 1 // untested sections") = false
  ∧ MatchString startsWithInlineIgnore ($"   // untested section") = true
  ∧ MatchString startsWithInlineIgnore ($"x := 1 // untested section") = false.
Proof. repeat split; vm_compute; reflexivity. Qed.

Example generated_examples :
  MatchString generatedFile ($"pkg/zz_generated.deepcopy.go") = true
  ∧ MatchString generatedFile ($"pkg/generated.got") = false
  ∧ MatchString generatedFile ($"pkg/a.go") = false.
Proof. repeat split; vm_compute; reflexivity. Qed.

Example budget_example :
  configuredUntestedOf
    ($"package a" ++ [nl] ++ $"//  untested sections:  12 of them" ++ [nl]
       ++ $"// untested sections: 3")
  = Some (12, 2).
Proof. vm_compute. reflexivity. Qed.

Example parser_example :
  path <$> untestedSectionsOf exampleNewSection exampleProfile
  = [$"a.go"; $"a.go"].
Proof. vm_compute. reflexivity. Qed.

Example run_example :
  fst <$> checkCoverage exampleNewSection exampleLocation exampleWorldNoRoot
            ($"coverage.out")
  = Some 1.
Proof. vm_compute. reflexivity. Qed.

(** ** The parser *)

(** A record outside the format of the profile: its hit count [0] is
    separated by a tab. Its trailing token is ["0"], it does not end with a
    space and [0], and the parser returns no region for it. *)
Lemma parser_misses_tab_separated_zero :
  untestedSectionsOf exampleNewSection tabProfile = []
  ∧ exampleNewSection <$> filter Spec.zeroHitToken (Spec.recordLines tabProfile)
    = [exampleNewSection ($"a.go:2.13,2.30 1" ++ [tab] ++ $"0")].
Proof. split; vm_compute; reflexivity. Qed.

(** For every text, in the format or not, the parser returns exactly one
    region per non-empty line, after the first non-empty line, whose text
    ends with a space followed by [0], in the order of the text; every such
    line has ["0"] as its trailing token. *)
Theorem parser_returns_zero_hit_records (NewSection : str → Section) (content : str) :
  untestedSectionsOf NewSection content
  = NewSection <$> filter Spec.endsInSpaceZero (Spec.recordLines content)
  ∧ Forall Spec.zeroHitToken (filter Spec.endsInSpaceZero (Spec.recordLines content)).
Proof.
  split; [apply untestedSectionsOf_recordLines|].
  apply Forall_forall. intros line Hin. apply list_elem_of_filter in Hin as [He _].
  by apply endsInSpaceZero_zeroHitToken.
Qed.

Lemma digit_is_no_space c : is_digit c = true → is_space c = false.
Proof.
  intros Hd. destruct (is_space c) eqn:Hs; [|done].
  apply bool_decide_eq_true in Hs.
  destruct Hs as [->|[->|[->|[->| ->]]]]; vm_compute in Hd; discriminate.
Qed.

Lemma tokens_go_one_token cur tok :
  Forall (λ c, is_space c = false) tok → cur ++ tok ≠ [] →
  Spec.tokens_go cur tok = [cur ++ tok].
Proof.
  revert cur. induction tok as [|c tok IH]; intros cur Hall Hne.
  - rewrite app_nil_r in *. simpl. by rewrite decide_False.
  - inversion Hall as [|?? Hc Htok]; subst. cbn [Spec.tokens_go]. rewrite Hc.
    rewrite IH; [|done|by destruct cur]. by rewrite <- app_assoc.
Qed.

(** The trailing token of a line that ends with a space and a token. *)
Lemma tokens_go_last_token cur front tok :
  tok ≠ [] → Forall (λ c, is_space c = false) tok →
  last (Spec.tokens_go cur (front ++ " "%char :: tok)) = Some tok.
Proof.
  intros Hne Hall.
  assert (Hlast : last (Spec.tokens_go [] tok) = Some tok)
    by (by rewrite tokens_go_one_token).
  revert cur. induction front as [|c front IH]; intros cur.
  - cbn [app Spec.tokens_go]. change (is_space " ") with true. cbn match.
    destruct (decide (cur = [])); [done|].
    destruct (Spec.tokens_go [] tok); [done|]. done.
  - cbn [app Spec.tokens_go]. destruct (is_space c); [|apply IH].
    destruct (decide (cur = [])); [apply IH|].
    specialize (IH []).
    destruct (Spec.tokens_go [] (front ++ " "%char :: tok)); [done|]. done.
Qed.

(** On a line in the format, the hit count is the trailing token, and it is
    ["0"] exactly when the line ends with a space and [0]. *)
Lemma inFormat_zeroHitToken line :
  Spec.inFormat line → Spec.zeroHitToken line ↔ Spec.endsInSpaceZero line.
Proof.
  intros (front & hitCount & -> & Hne & Hd). split.
  - unfold Spec.zeroHitToken, Spec.trailingToken, Spec.tokens.
    rewrite tokens_go_last_token; [|done|].
    + intros [= ->]. by exists front.
    + eapply Forall_impl; [done|]. apply digit_is_no_space.
  - apply endsInSpaceZero_zeroHitToken.
Qed.

Lemma inFormatb_inFormat line : Spec.inFormatb line = true → Spec.inFormat line.
Proof.
  unfold Spec.inFormatb. pose proof (span_skip is_digit (reverse line)) as Hs.
  destruct (Spec.skipWhile is_digit (reverse line)) as [|c rest]; [done|].
  intros [Hc Hne]%andb_true_iff.
  apply bool_decide_eq_true in Hc as ->. apply bool_decide_eq_true in Hne.
  set (span := Spec.spanWhile is_digit (reverse line)) in *.
  exists (reverse rest), (reverse span).
  split; [|split].
  - apply (f_equal reverse) in Hs. rewrite reverse_involutive in Hs.
    rewrite <- Hs. by rewrite reverse_app, reverse_cons, <- app_assoc.
  - intros Hr. apply Hne. apply (f_equal reverse) in Hr.
    by rewrite reverse_involutive in Hr.
  - apply Forall_reverse, spanWhile_Forall.
Qed.

Lemma inFormat_check lines :
  forallb Spec.inFormatb lines = true → Forall Spec.inFormat lines.
Proof.
  induction lines as [|line lines IH]; [constructor|]. cbn [forallb].
  intros [Hl Hls]%andb_true_iff. constructor; [by apply inFormatb_inFormat|auto].
Qed.

(** C1: for every profile whose record lines are in the format of the
    profile (each ends with a space and its hit count, a run of digits), the
    parser returns exactly one region per record line, after the first
    (mode) line, whose trailing whitespace-separated token is exactly
    ["0"], in the order of the profile; a hit count of [10] gives none. *)
Theorem parser_returns_zero_hit_tokens (NewSection : str → Section) (content : str) :
  Forall Spec.inFormat (Spec.recordLines content) →
  untestedSectionsOf NewSection content
  = NewSection <$> filter Spec.zeroHitToken (Spec.recordLines content).
Proof.
  intros Hfmt. rewrite untestedSectionsOf_recordLines. f_equal.
  induction Hfmt as [|line lines Hl _ IH]; [done|].
  destruct (decide (Spec.endsInSpaceZero line)) as [He|He].
  - rewrite !filter_cons_True; [by rewrite IH|by apply inFormat_zeroHitToken|done].
  - rewrite !filter_cons_False; [done| |done].
    intros Hz. by apply He, inFormat_zeroHitToken.
Qed.

Lemma parser_returns_zero_hit_tokens_witness :
  untestedSectionsOf exampleNewSection exampleProfile
  = exampleNewSection <$> filter Spec.zeroHitToken (Spec.recordLines exampleProfile).
Proof.
  apply (parser_returns_zero_hit_tokens exampleNewSection exampleProfile).
  apply inFormat_check. vm_compute. reflexivity.
Defined.

(** ** The exit code *)

(** C2: when [checkCoverage] returns, its exit code is 1 exactly when some
    file of the profile is over its budget (not generated, and with more
    regions left after suppression than its budget), and 0 otherwise. *)
Theorem exit_code_one_iff_over_budget (NewSection : str → Section)
    (Location : Section → str) (w : World) (coverageFilePath : str)
    (code : Z) (out : list str) :
  checkCoverage NewSection Location w coverageFilePath = Some (code, out) →
  ∃ content wd,
    files w coverageFilePath = Some content ∧ Getwd w = Some wd
    ∧ (code = 1 ↔
       ∃ file, sectionsOf file (untestedSectionsOf NewSection content) ≠ []
               ∧ overBudget w wd file
                   (sectionsOf file (untestedSectionsOf NewSection content)))
    ∧ (code = 0 ∨ code = 1).
Proof.
  unfold checkCoverage, untestedSections, readFile.
  destruct (files w coverageFilePath) as [content|]; [|done].
  cbn [mbind option_bind]. destruct (Getwd w) as [wd|]; [|done].
  cbn [mbind option_bind]. unfold iterateBySortedKey.
  destruct (foldl _ _ _) as [st'|] eqn:Hf; [|done].
  cbn [mbind option_bind]. intros [= <- <-].
  exists content, wd. split; [done|]. split; [done|].
  apply iterate_exitCode in Hf as [Hiff Hor]. cbn [exitCode] in *.
  split; [|destruct Hor; auto]. rewrite Hiff. split.
  - intros [|(file & Hin & Ho)]; [done|]. exists file.
    apply sorted_keys in Hin as [group Hg]. rewrite Hg in Ho. cbn in Ho.
    rewrite groupSectionsByPath_lookup in Hg. case_decide; [done|].
    injection Hg as <-. done.
  - intros (file & Hne & Ho). right. exists file.
    assert (Hg : groupSectionsByPath (untestedSectionsOf NewSection content) !! file
                 = Some (sectionsOf file (untestedSectionsOf NewSection content))).
    { rewrite groupSectionsByPath_lookup. by rewrite decide_False. }
    split; [apply sorted_keys; by eexists|]. by rewrite Hg.
Qed.

Lemma exit_code_one_iff_over_budget_witness :
  ∃ code out content wd,
    checkCoverage exampleNewSection exampleLocation exampleWorldNoRoot
      ($"coverage.out") = Some (code, out)
    ∧ files exampleWorldNoRoot ($"coverage.out") = Some content
    ∧ Getwd exampleWorldNoRoot = Some wd
    ∧ (code = 1 ↔
       ∃ file, sectionsOf file (untestedSectionsOf exampleNewSection content) ≠ []
               ∧ overBudget exampleWorldNoRoot wd file
                   (sectionsOf file (untestedSectionsOf exampleNewSection content)))
    ∧ (code = 0 ∨ code = 1).
Proof.
  eexists _, _.
  assert (Hrun : checkCoverage exampleNewSection exampleLocation
                   exampleWorldNoRoot ($"coverage.out")
                 = Some (1, _)) by (vm_compute; reflexivity).
  destruct (exit_code_one_iff_over_budget _ _ _ _ _ _ Hrun)
    as (content & wd & H1 & H2 & H3 & H4).
  exists content, wd. split; [exact Hrun|]. split; [exact H1|].
  split; [exact H2|]. split; [exact H3|exact H4].
Defined.

(** ** The inline-suppression filter *)

(** C3: for a region that lies within the file, the filter drops the region
    exactly when a line of the region carries the marker or the line just
    above the region is a marker line; otherwise it keeps the region. *)
Theorem inline_filter_drops_iff_suppressed (section : Section) (lines : list str) :
  Spec.covered lines section →
  (removeSectionsMarkedWithInlineComment [section] lines = Some []
   ↔ Spec.suppressed section lines)
  ∧ (removeSectionsMarkedWithInlineComment [section] lines = Some [section]
     ↔ ¬ Spec.suppressed section lines).
Proof.
  intros Hc. rewrite removeSections_keptOf. cbn [keptOf].
  destruct (keepsSection_covered _ _ Hc) as [[Hs ->]|[Hs ->]];
    cbn [mbind option_bind app]; split; split; try done.
Qed.

Lemma inline_filter_drops_iff_suppressed_witness :
  let section := {| path := $"a.go"; startLine := 2; endLine := 2; sortValue := 0 |} in
  let lines := [$"package a"; $"func f() { g() } // untested section"] in
  Spec.covered lines section
  ∧ (removeSectionsMarkedWithInlineComment [section] lines = Some []
     ↔ Spec.suppressed section lines)
  ∧ (removeSectionsMarkedWithInlineComment [section] lines = Some [section]
     ↔ ¬ Spec.suppressed section lines).
Proof.
  intros section lines.
  assert (Hc : Spec.covered lines section) by (repeat split; vm_compute; congruence).
  split; [exact Hc|].
  exact (inline_filter_drops_iff_suppressed section lines Hc).
Defined.

(** ** The budget reader *)

(** C4, as the specification words it, fails: the specification lets the
    comment be written in any case, and the reader finds no budget in
    [// Untested Sections: 3]. *)
Lemma budget_reader_is_case_sensitive :
  configuredUntestedOf capitalBudget = Some (0, 0)
  ∧ Spec.budgetRecord Spec.budgetAtAnyCase capitalBudget = Some (3, 1).
Proof. split; vm_compute; reflexivity. Qed.

(** A budget that no Go [int] holds makes the reader panic. *)
Example budget_too_large : configuredUntestedOf hugeBudget = None.
Proof. vm_compute. reflexivity. Qed.

(** C4, amended: the budget reader finds the first place in the file where
    [//], any number of spaces, [untested sections:] in exactly these
    letters, any number of spaces and a run of digits follow each other; it
    returns the integer of the whole run of digits, when a Go [int] holds
    it (the program panics when none does), and one plus the number of
    newlines before that place; and (0, 0) when there is no such place. *)
Theorem budget_reader_first_comment (w : World) (path : str) :
  configuredUntestedForFile w path
  = files w path ≫= Spec.budgetRecord Spec.budgetAt.
Proof.
  unfold configuredUntestedForFile, readFile.
  destruct (files w path) as [content|]; [|done].
  cbn [mbind option_bind]. apply configuredUntestedOf_budgetRecord.
Qed.

(** ** Generated files *)

(** C5: the pattern for generated files matches exactly the paths of the
    naming convention; for such a path the function [checkCoverage] calls
    leaves the diagnostic stream and the exit code as they are, whatever
    the regions, and for every other path it is the comparison with the
    budget. *)
Theorem generated_files_are_skipped (Location : Section → str) (w : World)
    (wd path : str) :
  (MatchString generatedFile path = true ↔ Spec.generatedName path)
  ∧ (Spec.generatedName path →
     ∀ sections st, checkPath Location w wd path sections st = Some st)
  ∧ (¬ Spec.generatedName path →
     ∀ sections st,
       checkPath Location w wd path sections st
       = compareWithBudget Location w wd path sections st).
Proof.
  split; [apply MatchString_generatedFile|]. unfold checkPath. split.
  - intros Hg sections st. apply MatchString_generatedFile in Hg. by rewrite Hg.
  - intros Hg sections st. destruct (MatchString generatedFile path) eqn:Hm; [|done].
    by apply MatchString_generatedFile in Hm.
Qed.

(** ** The path resolver *)

(** C6, as the specification words it, fails: when [os.Stat] fails for the
    candidate with an error other than "does not exist", no candidate is on
    disk, and the resolver returns the candidate for reading. *)
Lemma short_path_with_failing_stat :
  Stat failedWorld (Spec.candidate ($"/tmp/notdir") ($"a.go")) = StatFailed
  ∧ (∀ cand, ¬ Spec.candidateExists failedWorld ($"a.go") cand)
  ∧ normalizeCoveredPath failedWorld ($"a.go") ($"/home/dev/y")
    = Some ($"a.go", $"/tmp/notdir/src/a.go")
  ∧ $"/tmp/notdir/src/a.go" ≠ $"a.go".
Proof.
  split; [reflexivity|]. split; [|split; [vm_compute; reflexivity|done]].
  intros cand (buildRoot & _ & _ & Hs). discriminate Hs.
Qed.

(** C6, amended: a path of at most three segments is returned as it is, for
    display and for reading, when no build root is configured or [os.Stat]
    reports that the candidate [buildRoot/src/<path>] does not exist; in
    every other case (the candidate is on disk, or [os.Stat] fails
    otherwise) the path is returned for display and the candidate for
    reading. *)
Theorem short_path_resolution_by_stat (w : World) (path wd : str) :
  (length (Spec.segments path) ≤ 3)%nat →
  (Spec.noCandidate w path → normalizeCoveredPath w path wd = Some (path, path))
  ∧ (∀ buildRoot, GOPATH w = Some buildRoot →
       Stat w (Spec.candidate buildRoot path) ≠ StatNotExist →
       normalizeCoveredPath w path wd
       = Some (path, Spec.candidate buildRoot path)).
Proof.
  intros Hlen. rewrite normalizeCoveredPath_short by done.
  unfold Spec.noCandidate. split.
  - destruct (GOPATH w); [|done]. by intros ->.
  - intros buildRoot -> Hs. by destruct (Stat w _).
Qed.

Lemma short_path_resolution_by_stat_witness :
  normalizeCoveredPath exampleWorldNoRoot ($"a.go") ($"/home/dev/y")
  = Some ($"a.go", $"a.go")
  ∧ normalizeCoveredPath exampleWorld ($"b.go") ($"/home/dev/y")
    = Some ($"b.go", $"b.go")
  ∧ normalizeCoveredPath exampleWorld ($"a.go") ($"/home/dev/y")
    = Some ($"a.go", Spec.candidate ($"/go") ($"a.go"))
  ∧ normalizeCoveredPath failedWorld ($"a.go") ($"/home/dev/y")
    = Some ($"a.go", Spec.candidate ($"/tmp/notdir") ($"a.go")).
Proof.
  assert (Ha : (length (Spec.segments ($"a.go")) ≤ 3)%nat) by (vm_compute; lia).
  assert (Hb : (length (Spec.segments ($"b.go")) ≤ 3)%nat) by (vm_compute; lia).
  split; [|split; [|split]].
  - apply (proj1 (short_path_resolution_by_stat exampleWorldNoRoot ($"a.go")
                    ($"/home/dev/y") Ha)).
    exact I.
  - apply (proj1 (short_path_resolution_by_stat exampleWorld ($"b.go")
                    ($"/home/dev/y") Hb)).
    vm_compute. reflexivity.
  - apply (proj2 (short_path_resolution_by_stat exampleWorld ($"a.go")
                    ($"/home/dev/y") Ha) ($"/go")).
    + reflexivity.
    + vm_compute. discriminate.
  - apply (proj2 (short_path_resolution_by_stat failedWorld ($"a.go")
                    ($"/home/dev/y") Ha) ($"/tmp/notdir")).
    + reflexivity.
    + vm_compute. discriminate.
Defined.

(** C7, as the specification words it, fails: when [os.Stat] fails for the
    candidate with an error other than "does not exist", no candidate is on
    disk, and the resolver returns the candidate for reading and not the
    demodularized path (here the empty path, as nothing is on disk). *)
Lemma long_path_with_failing_stat :
  Stat failedWorld (Spec.candidate ($"/tmp/notdir") ($"github.com/x/y/pkg/a.go"))
  = StatFailed
  ∧ (∀ cand, ¬ Spec.candidateExists failedWorld ($"github.com/x/y/pkg/a.go") cand)
  ∧ Spec.demodularized failedWorld ($"github.com/x/y/pkg/a.go") []
  ∧ normalizeCoveredPath failedWorld ($"github.com/x/y/pkg/a.go") ($"/home/dev/y")
    = Some ($"github.com/x/y/pkg/a.go", $"/tmp/notdir/src/github.com/x/y/pkg/a.go").
Proof.
  split; [reflexivity|]. split; [|split; [|vm_compute; reflexivity]].
  - intros cand (buildRoot & _ & _ & Hs). discriminate Hs.
  - assert (Hlen : (3 < length (Spec.segments ($"github.com/x/y/pkg/a.go")))%nat)
      by (vm_compute; lia).
    pose proof (findFile_demodularized failedWorld _ Hlen) as Hd.
    assert (Hf : findFile failedWorld
                   (GoStrings.Join (drop 3 (Spec.segments ($"github.com/x/y/pkg/a.go")))
                      [PathSeparator]) = [])
      by (vm_compute; reflexivity).
    by rewrite Hf in Hd.
Qed.

(** C7, amended: for a path of more than three segments there is a
    demodularized path (the three segments of the module prefix stripped,
    then leading components removed until a file is found) such that the
    resolver returns it for display and for reading when no build root is
    configured or [os.Stat] reports that the candidate does not exist. In
    every other case (the candidate is on disk, or [os.Stat] fails
    otherwise) it returns the demodularized path for display and the
    candidate for reading when the working directory ends with the module
    prefix, and the path itself and the candidate when it does not. *)
Theorem long_path_resolution_by_stat (w : World) (path wd : str) :
  (3 < length (Spec.segments path))%nat →
  ∃ d, Spec.demodularized w path d
    ∧ (Spec.noCandidate w path → normalizeCoveredPath w path wd = Some (d, d))
    ∧ (∀ buildRoot, GOPATH w = Some buildRoot →
         Stat w (Spec.candidate buildRoot path) ≠ StatNotExist →
         (∃ front, wd = front ++ Spec.modulePrefix path) →
         normalizeCoveredPath w path wd = Some (d, Spec.candidate buildRoot path))
    ∧ (∀ buildRoot, GOPATH w = Some buildRoot →
         Stat w (Spec.candidate buildRoot path) ≠ StatNotExist →
         ¬ (∃ front, wd = front ++ Spec.modulePrefix path) →
         normalizeCoveredPath w path wd
         = Some (path, Spec.candidate buildRoot path)).
Proof.
  intros Hlen. destruct (normalizeCoveredPath_long w path wd Hlen) as (d & Hd & ->).
  exists d. split; [done|]. unfold Spec.noCandidate.
  split; [|split].
  - destruct (GOPATH w); [|done]. by intros ->.
  - intros buildRoot -> Hs Hwd. apply HasSuffix_spec in Hwd. rewrite Hwd.
    by destruct (Stat w _).
  - intros buildRoot -> Hs Hwd.
    destruct (GoStrings.HasSuffix wd (Spec.modulePrefix path)) eqn:Hsuf.
    + by apply HasSuffix_spec in Hsuf.
    + by destruct (Stat w _).
Qed.

Lemma long_path_resolution_by_stat_witness :
  let path := $"github.com/x/y/pkg/a.go" in
  (∃ d, Spec.demodularized exampleWorldNoRoot path d
        ∧ normalizeCoveredPath exampleWorldNoRoot path ($"/home/dev/y") = Some (d, d))
  ∧ (∃ d, Spec.demodularized exampleWorld path d
          ∧ normalizeCoveredPath exampleWorld path ($"/home/github.com/x/y")
            = Some (d, Spec.candidate ($"/go") path))
  ∧ normalizeCoveredPath exampleWorld path ($"/home/dev/y")
    = Some (path, Spec.candidate ($"/go") path)
  ∧ normalizeCoveredPath failedWorld path ($"/home/dev/y")
    = Some (path, Spec.candidate ($"/tmp/notdir") path).
Proof.
  intros path.
  assert (Hlen : (3 < length (Spec.segments path))%nat) by (vm_compute; lia).
  assert (Hwd : ¬ ∃ front, $"/home/dev/y" = front ++ Spec.modulePrefix path).
  { intros H. apply HasSuffix_spec in H. vm_compute in H. discriminate. }
  split; [|split; [|split]].
  - destruct (long_path_resolution_by_stat exampleWorldNoRoot path ($"/home/dev/y") Hlen)
      as (d & Hd & H1 & _).
    exists d. split; [exact Hd|]. apply H1. exact I.
  - destruct (long_path_resolution_by_stat exampleWorld path ($"/home/github.com/x/y") Hlen)
      as (d & Hd & _ & H2 & _).
    exists d. split; [exact Hd|]. apply (H2 ($"/go")).
    + reflexivity.
    + vm_compute. discriminate.
    + exists ($"/home/"). vm_compute. reflexivity.
  - destruct (long_path_resolution_by_stat exampleWorld path ($"/home/dev/y") Hlen)
      as (d & _ & _ & _ & H3).
    apply (H3 ($"/go")); [reflexivity| |exact Hwd]. vm_compute. discriminate.
  - destruct (long_path_resolution_by_stat failedWorld path ($"/home/dev/y") Hlen)
      as (d & _ & _ & _ & H3).
    apply (H3 ($"/tmp/notdir")); [reflexivity| |exact Hwd]. vm_compute. discriminate.
Defined.

(** ** The printed order *)

(** C8: the location lines [printUntestedSections] writes after its header
    are those of a permutation of the regions that is non-decreasing in
    [sortValue]; and for every other order of the same regions the
    [sortValue]s are printed in the same order. *)
Theorem printed_regions_sorted (Location : Section → str)
    (sections : list Section) (displayPath details : str) (st : RunState) :
  ∃ printed,
    stderr (printUntestedSections Location sections displayPath details st)
    = stderr st
        ++ [displayPath ++ $" new untested sections introduced " ++ details ++ [nl]]
        ++ ((λ section, displayPath ++ $":" ++ Location section ++ [nl]) <$> printed)
    ∧ printed ≡ₚ sections
    ∧ Sorted Z.le (sortValue <$> printed)
    ∧ ∀ sections', sections' ≡ₚ sections →
        ∃ printed',
          stderr (printUntestedSections Location sections' displayPath details st)
          = stderr st
              ++ [displayPath ++ $" new untested sections introduced " ++ details ++ [nl]]
              ++ ((λ section, displayPath ++ $":" ++ Location section ++ [nl])
                    <$> printed')
          ∧ sortValue <$> printed' = sortValue <$> printed.
Proof.
  exists (GoSort.Slice sections lessSortValue).
  split; [apply printUntestedSections_stderr|].
  split; [apply Slice_Permutation|].
  split; [apply Sorted_sortValue, Slice_Sorted|].
  intros sections' Hp. exists (GoSort.Slice sections' lessSortValue).
  split; [apply printUntestedSections_stderr|]. by apply sorted_values_unique.
Qed.

(** ** Monotonicity of suppression *)

(** C9: when a line of the file is replaced by the line with a marker
    appended to it (a text the marker pattern matches, without a newline),
    the filter returns a sublist of what it returned for the original
    lines; and what it returns is always a sublist of its input. *)
Theorem suppression_is_monotonic (sections : list Section) (lines : list str)
    (k : nat) (old marker : str) (kept : list Section) :
  lines !! k = Some old →
  MatchString anyInlineIgnore marker = true →
  nl ∉ marker →
  removeSectionsMarkedWithInlineComment sections lines = Some kept →
  ∃ kept',
    removeSectionsMarkedWithInlineComment sections (<[k := old ++ marker]> lines)
    = Some kept'
    ∧ sublist kept' kept ∧ sublist kept sections.
Proof.
  intros Hk Hm Hnl. rewrite !removeSections_keptOf. intros Hkept.
  destruct (keptOf_mono sections lines (<[k := old ++ marker]> lines) kept)
    as (kept' & Hk' & Hsub); [by apply moreMarked_append|done|].
  exists kept'. split; [done|]. split; [done|]. by eapply keptOf_sublist.
Qed.

Lemma suppression_is_monotonic_witness :
  let section := {| path := $"a.go"; startLine := 2; endLine := 2; sortValue := 0 |} in
  let lines := [$"package a"; $"func f() { g() }"] in
  ∃ kept',
    removeSectionsMarkedWithInlineComment [section]
      (<[1%nat := $"func f() { g() }" ++ $" // untested section"]> lines)
    = Some kept'
    ∧ sublist kept' [section] ∧ sublist [section] [section].
Proof.
  intros section lines.
  apply (suppression_is_monotonic [section] lines 1 ($"func f() { g() }")
           ($" // untested section") [section]).
  - reflexivity.
  - vm_compute. reflexivity.
  - apply (bool_decide_unpack _). vm_compute. exact I.
  - vm_compute. reflexivity.
Defined.

(** ** The reads of the filter *)

(** C10: when every region lies within the file, the filter returns (no
    read of [lines] is out of range), and every read it makes is, for some
    region and some line number of that region, the read of that line
    (index [lineNumber - 1]) or of the line before it (index
    [lineNumber - 2], made only when [lineNumber >= 2]), at an index within
    the list. *)
Theorem filter_reads_in_bounds (sections : list Section) (lines : list str) :
  Forall (Spec.covered lines) sections →
  is_Some (removeSectionsMarkedWithInlineComment sections lines)
  ∧ Forall (λ a,
        (∃ section, section ∈ sections ∧ readOf section a)
        ∧ match a with Access _ i => 0 ≤ i < Z.of_nat (length lines) end)
      (fst (removeSectionsMarkedWithInlineComment_traced sections lines)).
Proof.
  intros Hc. split.
  - rewrite removeSections_keptOf. by apply keptOf_covered.
  - eapply Forall_impl; [apply removeLoop_reads|].
    intros [lineNumber i] (section & Hin & Hr). split; [by eauto|].
    rewrite Forall_forall in Hc. destruct (Hc _ Hin) as (H1 & H2 & H3).
    destruct Hr as [Hln [->|[-> Hge]]]; lia.
Qed.

Lemma filter_reads_in_bounds_witness :
  let section := {| path := $"a.go"; startLine := 1; endLine := 2; sortValue := 0 |} in
  let lines := [$"package a"; $"func f() { g() }"] in
  is_Some (removeSectionsMarkedWithInlineComment [section] lines)
  ∧ Forall (λ a,
        (∃ section', section' ∈ [section] ∧ readOf section' a)
        ∧ match a with Access _ i => 0 ≤ i < Z.of_nat (length lines) end)
      (fst (removeSectionsMarkedWithInlineComment_traced [section] lines)).
Proof.
  intros section lines. apply (filter_reads_in_bounds [section] lines).
  repeat constructor; vm_compute; congruence.
Defined.

(** * Further properties of [main.go] *)

(** ** Grouping *)

(** X1: [groupSectionsByPath] has no group for a path that no region
    names, and for every other path the group is the list of the regions
    with that path, in the order of the input; so every region is in the
    group of its path and in no other. *)
Theorem groups_hold_their_regions (sections : list Section) (file : str) :
  (groupSectionsByPath sections !! file = None
   ↔ ∀ section, section ∈ sections → path section ≠ file)
  ∧ (∀ group, groupSectionsByPath sections !! file = Some group →
       group = filter (λ section, path section = file) sections ∧ group ≠ [])
  ∧ (∀ section, section ∈ sections →
       ∃ group, groupSectionsByPath sections !! path section = Some group
                ∧ section ∈ group).
Proof.
  rewrite groupSectionsByPath_lookup. unfold sectionsOf. split; [|split].
  - case_decide as He.
    + split; [|done]. intros _ section Hin Hp.
      assert (Hf : section ∈ filter (λ s, path s = file) sections)
        by (by apply list_elem_of_filter).
      rewrite He in Hf. by apply elem_of_nil in Hf.
    + split; [done|]. intros Hall. exfalso. apply He.
      destruct (filter _ sections) as [|s l] eqn:Hf; [done|].
      assert (Hin : s ∈ filter (λ s, path s = file) sections) by (rewrite Hf; left).
      apply list_elem_of_filter in Hin as [Hp Hin]. by destruct (Hall s Hin).
  - intros group. case_decide; [done|]. by intros [= <-].
  - intros section Hin. rewrite groupSectionsByPath_lookup. unfold sectionsOf.
    assert (Hf : section ∈ filter (λ s, path s = path section) sections)
      by (by apply list_elem_of_filter).
    case_decide as He; [rewrite He in Hf; by apply elem_of_nil in Hf|].
    eexists. split; [done|done].
Qed.

(** ** [findFile] *)

Lemma Join_drop_suffix (parts : list str) sep k :
  ∃ front, GoStrings.Join parts sep = front ++ GoStrings.Join (drop k parts) sep.
Proof.
  revert k. induction parts as [|part rest IH]; intros k.
  - exists []. by rewrite drop_nil.
  - destruct k as [|k]; [by exists []|]. cbn [drop].
    destruct (IH k) as [front Hf]. destruct rest as [|part' rest].
    + exists part. rewrite drop_nil. simpl. by rewrite app_nil_r.
    + rewrite Join_cons by done. rewrite Hf. exists (part ++ sep ++ front).
      by rewrite <- !app_assoc.
Qed.

(** X2: what [findFile] returns is the end of the path it was given, and it
    is either empty or a path for which [os.Stat] reports no error. *)
Theorem findFile_returns_existing_suffix (w : World) (path : str) :
  (∃ front, path = front ++ findFile w path)
  ∧ (findFile w path = [] ∨ Stat w (findFile w path) = StatOk).
Proof.
  unfold findFile. rewrite Split_byte.
  destruct (findFileLoop_firstOnDisk w (Spec.split_on PathSeparator path))
    as (k & -> & Hk & _ & Hat).
  split.
  - destruct (Join_drop_suffix (Spec.split_on PathSeparator path) [PathSeparator] k)
      as [front Hf].
    exists front. rewrite <- Hf. by rewrite Join_split_on.
  - destruct (decide (k < length (Spec.split_on PathSeparator path))%nat) as [Hlt|Hge].
    + right. by apply Hat.
    + left. by rewrite drop_ge by lia.
Qed.

(** X3: a path that is on disk as it stands is returned unchanged. *)
Theorem findFile_keeps_existing_path (w : World) (path : str) :
  Stat w path = StatOk → findFile w path = path.
Proof.
  intros Hs. unfold findFile. rewrite Split_byte.
  pose proof (Join_split_on PathSeparator path) as Hj.
  destruct (Spec.split_on PathSeparator path) as [|part rest] eqn:Hsplit.
  - by destruct (split_on_nonempty PathSeparator path).
  - cbn [findFileLoop]. rewrite Hj, Hs. done.
Qed.

Lemma findFile_keeps_existing_path_witness :
  findFile exampleWorld ($"pkg/a.go") = $"pkg/a.go".
Proof.
  apply (findFile_keeps_existing_path exampleWorld ($"pkg/a.go")).
  vm_compute. reflexivity.
Defined.

(** ** [normalizeCoveredPath] *)

(** X4: [normalizeCoveredPath] never panics (the element [1] it takes of the
    split at the module prefix is there); the display path it returns is
    the end of the given path, and the read path is the display path or the
    build-root candidate of the given path. *)
Theorem normalizeCoveredPath_shape (w : World) (path wd : str) :
  ∃ displayPath readPath,
    normalizeCoveredPath w path wd = Some (displayPath, readPath)
    ∧ (∃ front, path = front ++ displayPath)
    ∧ (readPath = displayPath
       ∨ ∃ buildRoot, GOPATH w = Some buildRoot
                      ∧ readPath = buildRoot ++ $"/src/" ++ path).
Proof.
  destruct (decide (length (Spec.segments path) ≤ 3)%nat) as [Hle|Hgt].
  - rewrite normalizeCoveredPath_short by done.
    destruct (GOPATH w) as [buildRoot|]; [destruct (IsNotExist _)|];
      eexists _, _; (split; [done|]); (split; [by exists []|]); eauto.
  - destruct (normalizeCoveredPath_long w path wd) as (d & Hd & ->); [lia|].
    assert (Hsuf : ∃ front, path = front ++ d).
    { destruct Hd as (found & (k & -> & _) & ->).
      destruct (Join_drop_suffix (drop 3 (Spec.segments path)) [PathSeparator] k)
        as [front Hf].
      exists (Spec.modulePrefix path ++ [PathSeparator] ++ front).
      rewrite (path_prefix_rest path) at 1 by lia. rewrite Hf.
      by rewrite <- !app_assoc. }
    destruct (GOPATH w) as [buildRoot|];
      [destruct (IsNotExist _); [|destruct (GoStrings.HasSuffix _ _)]|];
      eexists _, _; (split; [done|]); (split; [done || by exists []|]); eauto.
Qed.

(** X5: without a build root the path shown is the path read. *)
Theorem normalizeCoveredPath_without_build_root (w : World) (path wd : str) :
  GOPATH w = None →
  ∃ p, normalizeCoveredPath w path wd = Some (p, p).
Proof.
  intros Hg. destruct (decide (length (Spec.segments path) ≤ 3)%nat) as [Hle|Hgt].
  - rewrite normalizeCoveredPath_short, Hg by done. by eexists.
  - destruct (normalizeCoveredPath_long w path wd) as (d & _ & ->); [lia|].
    rewrite Hg. by eexists.
Qed.

Lemma normalizeCoveredPath_without_build_root_witness :
  ∃ p, normalizeCoveredPath exampleWorldNoRoot ($"github.com/x/y/pkg/a.go")
         ($"/home/dev/y") = Some (p, p).
Proof.
  apply (normalizeCoveredPath_without_build_root exampleWorldNoRoot
           ($"github.com/x/y/pkg/a.go") ($"/home/dev/y")).
  reflexivity.
Defined.

(** ** The suppression filter *)

Lemma keptOf_keeps sections lines kept section :
  keptOf sections lines = Some kept → section ∈ kept →
  keepsSection lines section = Some true.
Proof.
  revert kept. induction sections as [|s rest IH]; intros kept.
  - intros [= <-] Hin. by apply elem_of_nil in Hin.
  - cbn [keptOf]. destruct (keepsSection lines s) as [keep|] eqn:Hk; [|done].
    destruct (keptOf rest lines) as [kept0|]; [|done]. cbn [mbind option_bind].
    intros [= <-] Hin. destruct keep; cbn [app] in Hin.
    + apply elem_of_cons in Hin as [->|Hin]; [done|]. by eapply IH.
    + by eapply IH.
Qed.

Lemma keptOf_all_kept sections lines :
  Forall (λ section, keepsSection lines section = Some true) sections →
  keptOf sections lines = Some sections.
Proof.
  induction 1 as [|section rest Hk _ IH]; [done|].
  cbn [keptOf]. by rewrite Hk, IH.
Qed.

(** X6: filtering is idempotent: the filter keeps all of what it returned
    when it is run on it again with the same lines. *)
Theorem filter_is_idempotent (sections kept : list Section) (lines : list str) :
  removeSectionsMarkedWithInlineComment sections lines = Some kept →
  removeSectionsMarkedWithInlineComment kept lines = Some kept.
Proof.
  rewrite !removeSections_keptOf. intros Hk. apply keptOf_all_kept.
  apply Forall_forall. intros section Hin. by eapply keptOf_keeps.
Qed.

Lemma filter_is_idempotent_witness :
  let s1 := {| path := $"a.go"; startLine := 1; endLine := 1; sortValue := 0 |} in
  let s2 := {| path := $"a.go"; startLine := 2; endLine := 2; sortValue := 1 |} in
  let lines := [$"package a"; $"func f() { g() } // untested section"] in
  removeSectionsMarkedWithInlineComment [s1] lines = Some [s1].
Proof.
  intros s1 s2 lines.
  apply (filter_is_idempotent [s1; s2] [s1] lines). vm_compute. reflexivity.
Defined.

(** X7: the filter decides each region on its own: on two lists one after
    the other it returns what it returns on the first followed by what it
    returns on the second, and it panics when it panics on either. *)
Theorem filter_distributes_over_append (sections1 sections2 : list Section)
    (lines : list str) :
  removeSectionsMarkedWithInlineComment (sections1 ++ sections2) lines
  = kept1 ← removeSectionsMarkedWithInlineComment sections1 lines;
    kept2 ← removeSectionsMarkedWithInlineComment sections2 lines;
    Some (kept1 ++ kept2).
Proof.
  rewrite !removeSections_keptOf.
  induction sections1 as [|section rest IH].
  - simpl. by destruct (keptOf sections2 lines).
  - cbn [app keptOf]. destruct (keepsSection lines section) as [keep|]; [|done].
    cbn [mbind option_bind]. rewrite IH.
    destruct (keptOf rest lines) as [kept1|]; [|done]. cbn [mbind option_bind].
    destruct (keptOf sections2 lines) as [kept2|]; [|done]. cbn [mbind option_bind].
    by rewrite app_assoc.
Qed.

(** X8: a region whose end line is before its start line is dropped
    without a read of the lines, whatever they are. *)
Theorem empty_range_is_dropped (section : Section) (lines : list str) :
  endLine section < startLine section →
  removeSectionsMarkedWithInlineComment_traced [section] lines = ([], Some []).
Proof.
  intros Hlt. unfold removeSectionsMarkedWithInlineComment_traced.
  cbn [removeLoop].
  by replace (Z.to_nat (endLine section - startLine section + 1)) with 0%nat by lia.
Qed.

Lemma empty_range_is_dropped_witness :
  removeSectionsMarkedWithInlineComment_traced
    [{| path := $"a.go"; startLine := 3; endLine := 2; sortValue := 0 |}]
    [$"package a"]
  = ([], Some []).
Proof.
  apply (empty_range_is_dropped
           {| path := $"a.go"; startLine := 3; endLine := 2; sortValue := 0 |}
           [$"package a"]).
  vm_compute. reflexivity.
Defined.

Lemma keptOf_None sections lines section :
  section ∈ sections → keepsSection lines section = None →
  keptOf sections lines = None.
Proof.
  intros Hin Hk. induction sections as [|s rest IH].
  - by apply elem_of_nil in Hin.
  - cbn [keptOf]. apply elem_of_cons in Hin as [<-|Hin].
    + by rewrite Hk.
    + rewrite IH by done. by destruct (keepsSection lines s).
Qed.

(** X9: a region that is not empty and starts outside the file (before line
    1 or after the last line) makes the filter panic, wherever it stands in
    the list. *)
Theorem region_outside_file_panics (sections : list Section) (lines : list str)
    (section : Section) :
  section ∈ sections →
  startLine section ≤ endLine section →
  startLine section < 1 ∨ Z.of_nat (length lines) < startLine section →
  removeSectionsMarkedWithInlineComment sections lines = None.
Proof.
  intros Hin Hle Hout. rewrite removeSections_keptOf.
  apply (keptOf_None _ _ section Hin). unfold keepsSection.
  replace (Z.to_nat (endLine section - startLine section + 1))
    with (S (Z.to_nat (endLine section - startLine section))) by lia.
  cbn [keeps]. rewrite decide_True by done. unfold ignoredAt.
  destruct (elemAt lines (startLine section - 1)) as [line|] eqn:He; [|done].
  assert (His : is_Some (elemAt lines (startLine section - 1))) by (by eexists).
  apply elemAt_is_Some in His. lia.
Qed.

Lemma region_outside_file_panics_witness :
  removeSectionsMarkedWithInlineComment
    [{| path := $"a.go"; startLine := 1; endLine := 1; sortValue := 0 |};
     {| path := $"a.go"; startLine := 5; endLine := 6; sortValue := 1 |}]
    [$"package a"; $"func f() {}"]
  = None.
Proof.
  apply (region_outside_file_panics _ _
           {| path := $"a.go"; startLine := 5; endLine := 6; sortValue := 1 |}).
  - right. left.
  - vm_compute. congruence.
  - right. vm_compute. reflexivity.
Defined.

(** ** The patterns *)

(** X10: a line that the pattern for a marker line matches is also matched
    by the pattern for a marker; so of the look-back reads of the filter
    only the one above the first line of a region can change the result. *)
Theorem marker_line_matches_marker (line : str) :
  MatchString startsWithInlineIgnore line = true →
  MatchString anyInlineIgnore line = true.
Proof.
  intros Hs. apply MatchString_anyInlineIgnore, isMarkerLine_hasMarker.
  by apply MatchString_startsWithInlineIgnore.
Qed.

Lemma marker_line_matches_marker_witness :
  MatchString anyInlineIgnore ($"    // untested section, see below") = true.
Proof.
  apply (marker_line_matches_marker ($"    // untested section, see below")).
  vm_compute. reflexivity.
Defined.

(** ** The budget reader *)

Lemma firstBudget_bound at_ s i j digits :
  Spec.firstBudget at_ s i = Some (j, digits) → (i ≤ j ≤ i + length s)%nat.
Proof.
  revert i. induction s as [|c s IH]; intros i; cbn [Spec.firstBudget].
  - destruct (at_ []) as [[d r]|]; [|done]. intros [= <- <-]. simpl. lia.
  - destruct (at_ (c :: s)) as [[d r]|].
    + intros [= <- <-]. simpl. lia.
    + intros Hf. apply IH in Hf. simpl. lia.
Qed.

Lemma newlinesIn_take i s : (Spec.newlinesIn (take i s) ≤ Spec.newlinesIn s)%nat.
Proof.
  rewrite <- (take_drop i s) at 2. rewrite newlinesIn_app. lia.
Qed.

(** X11: when the budget pattern matches somewhere in the content and the
    reader returns, the line number it returns is the number of a line of the
    file (of the list that splitting the content at newlines gives); when
    the pattern matches nowhere, the reader returns (0, 0). *)
Theorem budget_line_is_a_line_of_the_file (content : str) :
  if MatchString perFileIgnore content
  then match configuredUntestedOf content with
       | Some (count, line) =>
           1 ≤ line ≤ Z.of_nat (length (GoStrings.Split content [nl]))
       | None => True
       end
  else configuredUntestedOf content = Some (0, 0).
Proof.
  rewrite configuredUntestedOf_budgetRecord. unfold MatchString, Spec.budgetRecord.
  pose proof (search_perFileIgnore true content 0) as Hs.
  destruct (search perFileIgnore true content 0) as [[j st]|]; cbn in Hs.
  - rewrite bool_decide_eq_true_2 by done. rewrite <- Hs.
    case_decide; [|done]. rewrite Split_byte, length_split_on.
    pose proof (newlinesIn_take j content). unfold Spec.newlinesIn in *. lia.
  - rewrite bool_decide_eq_false_2 by (by intros [? [=]]). by rewrite <- Hs.
Qed.

(** ** The parser *)

Lemma split_on_app_sep c a b :
  Spec.split_on c (a ++ c :: b) = Spec.split_on c a ++ Spec.split_on c b.
Proof.
  induction a as [|x a IH]; cbn [app Spec.split_on].
  - by rewrite decide_True.
  - destruct (decide (x = c)); [by rewrite IH|]. rewrite IH.
    pose proof (split_on_nonempty c a). by destruct (Spec.split_on c a).
Qed.

Lemma untestedSectionsOf_after_header (NewSection : str → Section) header records :
  header ≠ [] → nl ∉ header →
  untestedSectionsOf NewSection (header ++ nl :: records)
  = NewSection <$> filter Spec.endsInSpaceZero
                     (filter (λ line, line ≠ []) (Spec.split_on nl records)).
Proof.
  intros Hne Hnl. rewrite untestedSectionsOf_recordLines. unfold Spec.recordLines.
  rewrite split_on_app by done. by rewrite filter_cons_True.
Qed.

(** X12: the first non-empty line of the profile is dropped whatever it
    says, also when it reads like a record without coverage: two profiles
    that differ only in that line give the same regions. *)
Theorem header_line_is_ignored (NewSection : str → Section)
    (header1 header2 records : str) :
  header1 ≠ [] → nl ∉ header1 → header2 ≠ [] → nl ∉ header2 →
  untestedSectionsOf NewSection (header1 ++ nl :: records)
  = untestedSectionsOf NewSection (header2 ++ nl :: records).
Proof. intros. by rewrite !untestedSectionsOf_after_header. Qed.

Lemma header_line_is_ignored_witness :
  untestedSectionsOf exampleNewSection
    ($"a.go:1.1,1.9 1 0" ++ nl :: $"a.go:2.13,2.30 1 0")
  = untestedSectionsOf exampleNewSection
      ($"mode: set" ++ nl :: $"a.go:2.13,2.30 1 0").
Proof.
  apply (header_line_is_ignored exampleNewSection ($"a.go:1.1,1.9 1 0")
           ($"mode: set") ($"a.go:2.13,2.30 1 0")).
  - done.
  - apply (bool_decide_unpack _). vm_compute. exact I.
  - done.
  - apply (bool_decide_unpack _). vm_compute. exact I.
Defined.

(** X13: records put one after the other give their regions one after the
    other: the regions of a profile with the records [records1], a newline
    and [records2] are those of the profile with [records1] followed by
    those of the profile with [records2]. *)
Theorem parser_distributes_over_records (NewSection : str → Section)
    (header records1 records2 : str) :
  header ≠ [] → nl ∉ header →
  untestedSectionsOf NewSection (header ++ nl :: records1 ++ nl :: records2)
  = untestedSectionsOf NewSection (header ++ nl :: records1)
    ++ untestedSectionsOf NewSection (header ++ nl :: records2).
Proof.
  intros Hne Hnl. rewrite !untestedSectionsOf_after_header by done.
  by rewrite split_on_app_sep, !filter_app, fmap_app.
Qed.

Lemma parser_distributes_over_records_witness :
  untestedSectionsOf exampleNewSection
    ($"mode: set" ++ nl :: $"a.go:2.13,2.30 1 0" ++ nl :: $"b.go:2.1,2.9 1 0")
  = untestedSectionsOf exampleNewSection ($"mode: set" ++ nl :: $"a.go:2.13,2.30 1 0")
    ++ untestedSectionsOf exampleNewSection ($"mode: set" ++ nl :: $"b.go:2.1,2.9 1 0").
Proof.
  apply (parser_distributes_over_records exampleNewSection ($"mode: set")
           ($"a.go:2.13,2.30 1 0") ($"b.go:2.1,2.9 1 0")).
  - done.
  - apply (bool_decide_unpack _). vm_compute. exact I.
Defined.

(** ** The reporter *)

(** The three outcomes of the comparison with the budget. *)
Lemma compareWithBudget_outcome (Location : Section → str) (w : World)
    (wd file : str) (sections : list Section) (st st' : RunState) :
  compareWithBudget Location w wd file sections st = Some st' →
  ∃ displayPath readPath content kept configured atLine,
    normalizeCoveredPath w file wd = Some (displayPath, readPath)
    ∧ files w readPath = Some content
    ∧ configuredUntestedOf content = Some (configured, atLine)
    ∧ removeSectionsMarkedWithInlineComment sections
        (GoStrings.Split content [nl]) = Some kept
    ∧ (Z.of_nat (length kept) = configured → st' = st)
    ∧ (Z.of_nat (length kept) > configured →
       exitCode st' = 1
       ∧ ∃ printed, printed ≡ₚ kept
           ∧ stderr st' =
             stderr st
               ++ [displayPath ++ $" new untested sections introduced "
                     ++ ($"(" ++ formatInt (Z.of_nat (length kept))
                           ++ $" current vs " ++ formatInt configured
                           ++ $" configured)") ++ [nl]]
               ++ ((λ section, displayPath ++ $":" ++ Location section ++ [nl])
                     <$> printed))
    ∧ (Z.of_nat (length kept) < configured →
       exitCode st' = exitCode st
       ∧ stderr st' =
         stderr st
           ++ [displayPath ++ $" has less untested sections "
                 ++ ($"(" ++ formatInt (Z.of_nat (length kept))
                       ++ $" current vs " ++ formatInt configured
                       ++ $" configured)")
                 ++ $", decrement configured untested?" ++ [nl]
                 ++ $"configured on: " ++ readPath ++ $":" ++ formatInt atLine]).
Proof.
  unfold compareWithBudget, configuredUntestedForFile, readFile.
  destruct (normalizeCoveredPath w file wd) as [[displayPath readPath]|]; [|done].
  cbn [mbind option_bind].
  destruct (files w readPath) as [content|] eqn:Hf; [|done].
  cbn [mbind option_bind].
  destruct (configuredUntestedOf content) as [[configured atLine]|] eqn:Hc; [|done].
  cbn [mbind option_bind].
  destruct (removeSectionsMarkedWithInlineComment sections _) as [kept|] eqn:Hk;
    [|done].
  cbn [mbind option_bind]. intros Hst.
  exists displayPath, readPath, content, kept, configured, atLine.
  repeat (split; [done|]).
  repeat case_decide; simplify_eq; (split; [|split]); intros Hcmp; try lia; try done.
  split; [done|]. exists (GoSort.Slice kept lessSortValue).
  split; [apply Slice_Permutation|]. cbn [setExitCode stderr].
  apply printUntestedSections_stderr.
Qed.

(** X14: the comparison with the budget has three outcomes. With as many
    regions left as the budget says, nothing is written and the exit code
    stays. With more, the exit code becomes 1 and a header and one line per
    region left are written. With fewer, one warning that names the read
    path and the line of the budget comment is written and the exit code
    stays. *)
Theorem budget_comparison_outcomes (Location : Section → str) (w : World)
    (wd file : str) (sections : list Section) (st st' : RunState) :
  compareWithBudget Location w wd file sections st = Some st' →
  ∃ displayPath readPath content kept configured atLine,
    normalizeCoveredPath w file wd = Some (displayPath, readPath)
    ∧ files w readPath = Some content
    ∧ configuredUntestedOf content = Some (configured, atLine)
    ∧ removeSectionsMarkedWithInlineComment sections
        (GoStrings.Split content [nl]) = Some kept
    ∧ (Z.of_nat (length kept) = configured → st' = st)
    ∧ (Z.of_nat (length kept) > configured →
       exitCode st' = 1
       ∧ ∃ printed, printed ≡ₚ kept
           ∧ stderr st' =
             stderr st
               ++ [displayPath ++ $" new untested sections introduced "
                     ++ ($"(" ++ formatInt (Z.of_nat (length kept))
                           ++ $" current vs " ++ formatInt configured
                           ++ $" configured)") ++ [nl]]
               ++ ((λ section, displayPath ++ $":" ++ Location section ++ [nl])
                     <$> printed))
    ∧ (Z.of_nat (length kept) < configured →
       exitCode st' = exitCode st
       ∧ stderr st' =
         stderr st
           ++ [displayPath ++ $" has less untested sections "
                 ++ ($"(" ++ formatInt (Z.of_nat (length kept))
                       ++ $" current vs " ++ formatInt configured
                       ++ $" configured)")
                 ++ $", decrement configured untested?" ++ [nl]
                 ++ $"configured on: " ++ readPath ++ $":" ++ formatInt atLine]).
Proof. apply compareWithBudget_outcome. Qed.

Lemma budget_comparison_outcomes_witness :
  ∃ st', compareWithBudget exampleLocation exampleWorldNoRoot ($"/home/dev/y")
           ($"a.go")
           [{| path := $"a.go"; startLine := 2; endLine := 2; sortValue := 0 |}]
           {| stderr := []; exitCode := 0 |} = Some st'
         ∧ exitCode st' = 1.
Proof.
  eexists.
  assert (Hrun : compareWithBudget exampleLocation exampleWorldNoRoot ($"/home/dev/y")
           ($"a.go")
           [{| path := $"a.go"; startLine := 2; endLine := 2; sortValue := 0 |}]
           {| stderr := []; exitCode := 0 |} = Some _) by (vm_compute; reflexivity).
  split; [exact Hrun|].
  destruct (budget_comparison_outcomes _ _ _ _ _ _ _ Hrun)
    as (dp & rp & content & kept & configured & atLine & H1 & H2 & H3 & H4 & _ & _ & _).
  reflexivity.
Defined.

(** X15: the function [checkCoverage] calls for a path never takes back a
    failure or a diagnostic: an exit code of 1 stays 1, and what was
    written before is still the beginning of what is written after. *)
Theorem checkPath_keeps_failures (Location : Section → str) (w : World)
    (wd file : str) (sections : list Section) (st st' : RunState) :
  checkPath Location w wd file sections st = Some st' →
  (exitCode st = 1 → exitCode st' = 1)
  ∧ stderr st `prefix_of` stderr st'.
Proof.
  unfold checkPath. destruct (MatchString generatedFile file).
  - by intros [= <-].
  - intros Hc. apply compareWithBudget_outcome in Hc
      as (dp & rp & content & kept & configured & atLine
          & _ & _ & _ & _ & Heq & Hgt & Hlt).
    destruct (Z.lt_total (Z.of_nat (length kept)) configured) as [H|[H|H]].
    + destruct (Hlt H) as [-> ->]. split; [done|]. by eexists.
    + by rewrite (Heq H).
    + destruct (Hgt ltac:(lia)) as [-> (printed & _ & ->)]. split; [done|].
      by eexists.
Qed.

Lemma checkPath_keeps_failures_witness :
  ∃ st', checkPath exampleLocation exampleWorldNoRoot ($"/home/dev/y") ($"a.go") []
           {| stderr := [$"earlier"]; exitCode := 1 |} = Some st'
         ∧ (1 = 1 → exitCode st' = 1)
         ∧ [$"earlier"] `prefix_of` stderr st'.
Proof.
  eexists.
  assert (Hrun : checkPath exampleLocation exampleWorldNoRoot ($"/home/dev/y")
                   ($"a.go") [] {| stderr := [$"earlier"]; exitCode := 1 |}
                 = Some _) by (vm_compute; reflexivity).
  split; [exact Hrun|].
  exact (checkPath_keeps_failures _ _ _ _ _ _ _ Hrun).
Defined.

Lemma iterate_generated (Location : Section → str) (w : World) (wd : str)
    (data : gmap str (list Section)) (keys : list str) (st : RunState) :
  Forall (λ key, MatchString generatedFile key = true) keys →
  foldl (λ acc key, st' ← acc;
           checkPath Location w wd key (default [] (data !! key)) st')
    (Some st) keys = Some st.
Proof.
  induction 1 as [|key keys Hk _ IH]; [done|].
  cbn [foldl mbind option_bind]. unfold checkPath at 2. by rewrite Hk.
Qed.

(** X16: a profile without a record of a file that is not generated (an
    empty profile, one of covered records only, or one whose uncovered
    records all name generated files) gives exit code 0 and no diagnostic,
    and no source file is read for it. *)
Theorem nothing_to_report (NewSection : str → Section) (Location : Section → str)
    (w : World) (coverageFilePath content wd : str) :
  files w coverageFilePath = Some content →
  Getwd w = Some wd →
  Forall (λ section, MatchString generatedFile (path section) = true)
    (untestedSectionsOf NewSection content) →
  checkCoverage NewSection Location w coverageFilePath = Some (0, []).
Proof.
  intros Hf Hwd Hgen. unfold checkCoverage, untestedSections, readFile.
  rewrite Hf, Hwd. cbn [mbind option_bind]. unfold iterateBySortedKey.
  rewrite iterate_generated; [done|].
  apply Forall_forall. intros key Hk. apply sorted_keys in Hk as [group Hg].
  rewrite groupSectionsByPath_lookup in Hg. case_decide as He; [done|].
  unfold sectionsOf in He.
  destruct (filter _ (untestedSectionsOf NewSection content)) as [|s l] eqn:Hfl;
    [done|].
  assert (Hin : s ∈ filter (λ s, path s = key) (untestedSectionsOf NewSection content))
    by (rewrite Hfl; left).
  apply list_elem_of_filter in Hin as [<- Hin].
  rewrite Forall_forall in Hgen. by apply Hgen.
Qed.

Lemma nothing_to_report_witness :
  checkCoverage exampleNewSection exampleLocation generatedWorld ($"coverage.out")
  = Some (0, []).
Proof.
  apply (nothing_to_report exampleNewSection exampleLocation generatedWorld
           ($"coverage.out") generatedProfile ($"/home/dev/y")).
  - reflexivity.
  - reflexivity.
  - vm_compute. repeat constructor.
Defined.

(** ** The entry point *)

